(** * A FreeRTOS digital synthesizer: oscillator bank, sample pipeline, tasks

    Shallow embedding of [src/main.c].  The C globals become one record
    [system]; every C function becomes a function on that record; the
    FreeRTOS queues and the two peripherals (USART receiver, SPI
    transmitter) are modelled by their observable state.  [main] as
    committed runs a triangle test loop and leaves the scheduler set-up
    commented out; the tasks are modelled as the functions they are, one
    turn of their loop at a time.

    Conventions.
    - [long] fields are [Z].  The only arithmetic the code does on them is
      [v_counter++] (guarded by [v_counter < v_period]), [<< 1] and a
      subtraction; signed overflow is undefined in C, so nothing is wrapped,
      and every statement about sample values keeps its operands inside
      the range of a 32-bit [long].
    - [uint16_t] values are [Z] reduced modulo [2^16] where the code stores
      into one.
    - [float] is IEEE-754 binary32, taken from the standard library's
      executable specification [SpecFloat] at precision 24 and maximal
      exponent 128, rounding to nearest even. *)

From Stdlib Require Import ZArith Lia Bool List.
From Stdlib Require Import SpecFloat.
From stdpp Require Import base list.

Local Open Scope Z_scope.

(** ** Machine arithmetic *)

Definition LONG_MAX : Z := 2147483647.

(** Conversion to [uint16_t]. *)
Definition u16 (z : Z) : Z := z mod 65536.

(** ** IEEE-754 binary32 *)

Module Float32.

Definition prec : Z := 24.
Definition emax : Z := 128.

(** [float f = n;] for an integer [n]. *)
Definition of_long (n : Z) : spec_float := binary_normalize prec emax n 0 false.

Definition mul : spec_float -> spec_float -> spec_float := SFmul prec emax.
Definition div : spec_float -> spec_float -> spec_float := SFdiv prec emax.

(** Truncation toward zero, the integer part of a finite float. *)
Definition trunc (f : spec_float) : option Z :=
  match f with
  | S754_zero _ => Some 0
  | S754_finite s m e =>
      Some (cond_Zopp s (if 0 <=? e then Z.pos m * 2 ^ e else Z.pos m / 2 ^ (- e)))
  | S754_infinity _ | S754_nan => None
  end.

(** [(uint16_t) f].  C defines the conversion only when the integer part
    fits the target type; outside that (and for infinities and NaN) the
    model fixes a value so that the function is total. *)
Definition to_uint16 (f : spec_float) : Z :=
  match trunc f with
  | Some z => u16 z
  | None => 0
  end.

End Float32.

(** ** Types of [main.c] *)

Inductive wave_type := SQUARE | SAW | TRI.

Definition wave_type_eqb (a b : wave_type) : bool :=
  match a, b with
  | SQUARE, SQUARE | SAW, SAW | TRI, TRI => true
  | _, _ => false
  end.

Record voices := mk_voice {
  v_enable : bool;
  v_type : wave_type;
  v_counter : Z;
  v_period : Z
}.

(** [union u16_to_u8]: byte [i] of the object representation of a
    [uint16_t].  The target (ARM Cortex-M0+, the SAM D family served by
    [asf.h]) is little-endian: [u8[0]] is the low byte. *)
Definition u16_to_u8 (w : Z) (i : Z) : Z := Z.land (Z.shiftr w (8 * i)) 255.

(** The SPI master as seen from outside: chip-select edges and byte
    buffers, in the order issued. *)
Inductive spi_op :=
| spi_select_slave (select : bool)
| spi_write_buffer_wait (tx_data : list Z).

(** A FreeRTOS queue: the items held, oldest first, and [uxQueueLength]. *)
Record xQueue := mk_queue {
  q_items : list Z;
  uxQueueLength : nat
}.

(** The globals of [main.c] and the state of the two peripherals. *)
Record system := mk_system {
  active_voices : list voices;     (* static struct voices active_voices[4] *)
  full_queue_flag : bool;
  sample_buffer : Z;
  j : Z;
  sampleQueue : xQueue;
  messageQueue : xQueue;
  UARTsem : bool;                  (* binary semaphore: true when given *)
  usart_rx : list Z;               (* words waiting in the USART receiver *)
  spi_tx : list spi_op             (* everything sent to the SPI master *)
}.

Definition set_active_voices (x : list voices) (s : system) : system :=
  mk_system x (full_queue_flag s) (sample_buffer s) (j s) (sampleQueue s)
            (messageQueue s) (UARTsem s) (usart_rx s) (spi_tx s).
Definition set_full_queue_flag (x : bool) (s : system) : system :=
  mk_system (active_voices s) x (sample_buffer s) (j s) (sampleQueue s)
            (messageQueue s) (UARTsem s) (usart_rx s) (spi_tx s).
Definition set_sample_buffer (x : Z) (s : system) : system :=
  mk_system (active_voices s) (full_queue_flag s) x (j s) (sampleQueue s)
            (messageQueue s) (UARTsem s) (usart_rx s) (spi_tx s).
Definition set_j (x : Z) (s : system) : system :=
  mk_system (active_voices s) (full_queue_flag s) (sample_buffer s) x (sampleQueue s)
            (messageQueue s) (UARTsem s) (usart_rx s) (spi_tx s).
Definition set_sampleQueue (x : xQueue) (s : system) : system :=
  mk_system (active_voices s) (full_queue_flag s) (sample_buffer s) (j s) x
            (messageQueue s) (UARTsem s) (usart_rx s) (spi_tx s).
Definition set_messageQueue (x : xQueue) (s : system) : system :=
  mk_system (active_voices s) (full_queue_flag s) (sample_buffer s) (j s) (sampleQueue s)
            x (UARTsem s) (usart_rx s) (spi_tx s).
Definition set_UARTsem (x : bool) (s : system) : system :=
  mk_system (active_voices s) (full_queue_flag s) (sample_buffer s) (j s) (sampleQueue s)
            (messageQueue s) x (usart_rx s) (spi_tx s).
Definition set_usart_rx (x : list Z) (s : system) : system :=
  mk_system (active_voices s) (full_queue_flag s) (sample_buffer s) (j s) (sampleQueue s)
            (messageQueue s) (UARTsem s) x (spi_tx s).
Definition set_spi_tx (x : list spi_op) (s : system) : system :=
  mk_system (active_voices s) (full_queue_flag s) (sample_buffer s) (j s) (sampleQueue s)
            (messageQueue s) (UARTsem s) (usart_rx s) x.

(** ** Application functions *)

Definition DAC_CMD_MASK : Z := 0x3000.

(** [sample_to_send.u16 = (input16 & 0xFFF) | (DAC_CMD_MASK);] *)
Definition sample_to_send_u16 (input16 : Z) : Z :=
  u16 (Z.lor (Z.land input16 0xFFF) DAC_CMD_MASK).

(** [sent_bytes[0] = sample_to_send.u8[1]; sent_bytes[1] = sample_to_send.u8[0];] *)
Definition sent_bytes (input16 : Z) : list Z :=
  [u16_to_u8 (sample_to_send_u16 input16) 1; u16_to_u8 (sample_to_send_u16 input16) 0].

Definition write_to_MCP4821 (input16 : Z) (s : system) : system :=
  set_spi_tx (spi_tx s ++ [spi_select_slave true;
                           spi_write_buffer_wait (sent_bytes input16);
                           spi_select_slave false]) s.

(** [fraction_of_FFF]: all three operations are carried out in [float]. *)
Definition fraction_of_FFF (num den : Z) : Z :=
  let num_f := Float32.of_long num in
  let den_f := Float32.of_long den in
  let output := Float32.of_long 0xFFF in
  let output := Float32.mul output (Float32.div num_f den_f) in
  Float32.to_uint16 output.

(** [sample_buffer += (uint16_t) x;] on the accumulator [sample_buffer]. *)
Definition add_sample (x : Z) (sample_buffer : Z) : Z :=
  u16 (sample_buffer + u16 x).

(** The three waveform branches of the loop body, for the voice [v]; each
    takes the current [sample_buffer] and returns the new one. *)
Definition wave_square (v : voices) (sample_buffer : Z) : Z :=
  if wave_type_eqb (v_type v) SQUARE then
    if v_counter v <=? Z.quot (v_period v) 2
    then add_sample (Z.shiftr 0xFFF 2) sample_buffer
    else sample_buffer
  else sample_buffer.

Definition wave_saw (v : voices) (sample_buffer : Z) : Z :=
  if wave_type_eqb (v_type v) SAW then
    add_sample (Z.shiftr (fraction_of_FFF (v_counter v) (v_period v)) 2) sample_buffer
  else sample_buffer.

Definition wave_tri (v : voices) (sample_buffer : Z) : Z :=
  if wave_type_eqb (v_type v) TRI then
    if v_counter v <=? Z.shiftr (v_period v) 1 then
      add_sample
        (Z.shiftr (fraction_of_FFF (Z.shiftl (v_counter v) 1) (v_period v)) 2)
        sample_buffer
    else if v_counter v >? Z.shiftr (v_period v) 1 then
      add_sample
        (Z.shiftr (fraction_of_FFF (Z.shiftl (v_period v - v_counter v) 1)
                                   (v_period v)) 2)
        sample_buffer
    else sample_buffer
  else sample_buffer.

(** What the loop body leaves in [sample_buffer] for an enabled voice: the
    three branches run on the accumulator that was just cleared. *)
Definition voice_sample (v : voices) : Z :=
  wave_tri v (wave_saw v (wave_square v 0)).

(** The counter update that ends the loop body. *)
Definition advance_counter (v : voices) : voices :=
  if v_counter v <? v_period v
  then mk_voice (v_enable v) (v_type v) (v_counter v + 1) (v_period v)
  else mk_voice (v_enable v) (v_type v) 0 (v_period v).

(** One pass through the body of [for(j=0; j<4; j++)], at the current [j]. *)
Definition sample_calc_body (s : system) : system :=
  let s := set_sample_buffer 0 s in
  match active_voices s !! Z.to_nat (j s) with
  | Some v =>
      if v_enable v then
        let s := set_sample_buffer (wave_square v (sample_buffer s)) s in
        let s := set_sample_buffer (wave_saw v (sample_buffer s)) s in
        let s := set_sample_buffer (wave_tri v (sample_buffer s)) s in
        set_active_voices (<[Z.to_nat (j s) := advance_counter v]> (active_voices s)) s
      else s
  | None => s
  end.

Definition sample_calc (s : system) : system :=
  set_j 4 (fold_left (fun s k => sample_calc_body (set_j k s)) [0; 1; 2; 3] s).

(** The sample engine's contract in the words of the design document:
    the composite sample is the sum of the per-voice amplitudes over all
    enabled voices.  Used only to compare [sample_calc] against. *)
Definition compute_spec (bank : list voices) : Z :=
  fold_right (fun v acc => if v_enable v then voice_sample v + acc else acc) 0 bank.

(** [n] calls of [sample_calc], one per sample tick. *)
Definition ticks (n : nat) (s : system) : system := Nat.iter n sample_calc s.

(** ** FreeRTOS primitives *)

Definition queue_full (q : xQueue) : bool :=
  (uxQueueLength q <=? length (q_items q))%nat.

(** [xQueueSendToBack(q, &item, xTicksToWait)].  With room the item is
    posted at once.  On a full queue the caller waits at most
    [xTicksToWait] ticks; [freed] tells whether the receiving task takes
    the oldest item within that time.  The result is the queue and
    [pdTRUE] / [errQUEUE_FULL]. *)
Definition xQueueSendToBack (q : xQueue) (item : Z) (xTicksToWait : Z) (freed : bool)
  : xQueue * bool :=
  if queue_full q then
    match q_items q with
    | _ :: rest =>
        if (0 <? xTicksToWait) && freed
        then (mk_queue (rest ++ [item]) (uxQueueLength q), true)
        else (q, false)
    | [] => (q, false)
    end
  else (mk_queue (q_items q ++ [item]) (uxQueueLength q), true).

(** [xQueueSendToBackFromISR] never waits. *)
Definition xQueueSendToBackFromISR (q : xQueue) (item : Z) : xQueue * bool :=
  xQueueSendToBack q item 0 false.

(** [xQueueReceive(q, &buffer, 0)]: the oldest item, if any. *)
Definition xQueueReceive (q : xQueue) : option (Z * xQueue) :=
  match q_items q with
  | item :: rest => Some (item, mk_queue rest (uxQueueLength q))
  | [] => None
  end.

(** The two settings of [FreeRTOSConfig.h] that [main.c] depends on
    through [portTickType] and [portTICK_RATE_uS].  The header is not
    among the sources of the application, so the model takes them as
    parameters. *)
Record FreeRTOSConfig := mk_config {
  configTICK_RATE_HZ : Z;
  configUSE_16_BIT_TICKS : bool
}.

(** [(portTickType) z]: an unsigned integer of 16 or of 32 bits. *)
Definition portTickType (cfg : FreeRTOSConfig) (z : Z) : Z :=
  z mod 2 ^ (if configUSE_16_BIT_TICKS cfg then 16 else 32).

(** [#define portTICK_RATE_uS ((portTickType) 1000000 / configTICK_RATE_HZ)],
    the tick rate being a [portTickType] value.  [None] where the
    expression divides by zero. *)
Definition portTICK_RATE_uS (cfg : FreeRTOSConfig) : option Z :=
  let hz := portTickType cfg (configTICK_RATE_HZ cfg) in
  if hz =? 0 then None else Some (portTickType cfg 1000000 / hz).

(** [50/portTICK_RATE_uS], as it is passed for the [portTickType]
    parameter [xTicksToWait].  [None] where either division is by zero. *)
Definition uart_push_wait (cfg : FreeRTOSConfig) : option Z :=
  match portTICK_RATE_uS cfg with
  | Some rate => if rate =? 0 then None else Some (portTickType cfg (50 / rate))
  | None => None
  end.

(** ** Interrupt handler and tasks *)

(** [usart_read_callback]: gives the semaphore. *)
Definition usart_read_callback (s : system) : system := set_UARTsem true s.

(** The inner loop of [vUARTHandlerTask]:
    [while(usart_read_wait(...) == STATUS_OK) { temp8 = (uint8_t) temp;
    xQueueSendToBack(messageQueue, &temp8, 50/portTICK_RATE_uS); }].
    [usart_read_wait] hands out the oldest word the receiver holds and
    reports a status other than [STATUS_OK] once it holds none, so the
    loop runs down the list [rx].  [freed] lists, push by push, what the
    receiving task does meanwhile; the status returned by the push is not
    looked at.  [None] when a push is reached whose wait divides by
    zero. *)
Fixpoint uart_drain (cfg : FreeRTOSConfig) (rx : list Z) (freed : list bool) (q : xQueue)
  : option xQueue :=
  match rx with
  | temp :: rx =>
      match uart_push_wait cfg with
      | Some xTicksToWait =>
          let temp8 := temp mod 256 in
          let q := fst (xQueueSendToBack q temp8 xTicksToWait (hd false freed)) in
          uart_drain cfg rx (tl freed) q
      | None => None
      end
  | [] => Some q
  end.

(** What one turn of the outer loop of [vUARTHandlerTask] comes to: the
    task stays blocked on the semaphore, or it runs into a division by
    zero, or it gets through the inner loop and is back at the take. *)
Inductive uart_turn :=
| Blocked
| Undefined
| Done (s : system).

(** One turn of the outer loop of [vUARTHandlerTask], from
    [xSemaphoreTake(UARTsem, portMAX_DELAY)]. *)
Definition vUARTHandlerTask (cfg : FreeRTOSConfig) (freed : list bool) (s : system)
  : uart_turn :=
  if UARTsem s then
    let s := set_UARTsem false s in
    match uart_drain cfg (usart_rx s) freed (messageQueue s) with
    | Some q => Done (set_messageQueue q (set_usart_rx [] s))
    | None => Undefined
    end
  else Blocked.

(** One turn of the loop of [vPeriodicSPITask]. *)
Definition vPeriodicSPITask (s : system) : system :=
  match xQueueReceive (sampleQueue s) with
  | Some (sample, q) => write_to_MCP4821 sample (set_sampleQueue q s)
  | None => s
  end.

(** One turn of the loop of [vMIDIInterpreter]: the branch taken on a
    received byte is empty in the source. *)
Definition vMIDIInterpreter (s : system) : system :=
  match xQueueReceive (messageQueue s) with
  | Some (MIDI_message, q) => set_messageQueue q s
  | None => s
  end.

(** [vSampleCalcTask], one queue operation at a time.  Control always
    comes back to the test of [while(full_queue_flag)]: with the flag set
    the body of that inner loop runs once; with the flag clear the inner
    loop is skipped and the rest of the outer body runs. *)
Definition vSampleCalcTask (s : system) : system :=
  if full_queue_flag s then
    let (q, xStatus) := xQueueSendToBackFromISR (sampleQueue s) (sample_buffer s) in
    let s := set_sampleQueue q s in
    if xStatus then set_full_queue_flag false s else s
  else
    let s := sample_calc s in
    let (q, xStatus) := xQueueSendToBackFromISR (sampleQueue s) (sample_buffer s) in
    let s := set_sampleQueue q s in
    if xStatus then s else set_full_queue_flag true s.

(** Interleavings of the three tasks that share the queues with the
    producer (the scheduler is preemptive: any order can occur). *)
Inductive task := SampleCalcTask | PeriodicSPITask | MIDIInterpreter.

Definition task_step (t : task) (s : system) : system :=
  match t with
  | SampleCalcTask => vSampleCalcTask s
  | PeriodicSPITask => vPeriodicSPITask s
  | MIDIInterpreter => vMIDIInterpreter s
  end.

Definition run (sched : list task) (s : system) : system :=
  fold_left (fun s t => task_step t s) sched s.

(** ** [main] *)

(** A voice as C start-up leaves a static: all zero. *)
Definition zero_voice : voices := mk_voice false SQUARE 0 0.

(** The globals when [main] reaches its test loops: statics zeroed, no queue
    created, voice 0 set to a triangle of period 5, [j = 0]. *)
Definition main_init : system :=
  mk_system [mk_voice true TRI 0 5; zero_voice; zero_voice; zero_voice]
            false 0 0 (mk_queue [] 0) (mk_queue [] 0) false [] [].

(** One pass of the loop under [//TRIANGLE TEST]; [None] when [j] is no index
    of [active_voices]. *)
Definition triangle_test_pass (s : system) : option system :=
  if (0 <=? j s) && (j s <? 4) then
    match active_voices s !! Z.to_nat (j s) with
    | Some vj =>
        let s :=
          if v_counter vj <=? Z.shiftr (v_period vj) 1 then
            set_sample_buffer
              (u16 (Z.shiftr (fraction_of_FFF (Z.shiftl (v_counter vj) 1)
                                              (v_period vj)) 2)) s
          else if v_counter vj >? Z.shiftr (v_period vj) 1 then
            set_sample_buffer
              (u16 (Z.shiftr (fraction_of_FFF
                                (Z.shiftl (v_period vj - v_counter vj) 1)
                                (v_period vj)) 2)) s
          else s in
        match active_voices s !! 0%nat with
        | Some v0 =>
            let s := set_active_voices (<[0%nat := advance_counter v0]> (active_voices s)) s in
            Some (write_to_MCP4821 (u16 (sample_buffer s * 3)) s)
        | None => None
        end
    | None => None
    end
  else None.

(** The first [n] passes of the loop (it never ends). *)
Fixpoint triangle_test (n : nat) (s : system) : option system :=
  match n with
  | O => Some s
  | S n => match triangle_test_pass s with
           | Some s => triangle_test n s
           | None => None
           end
  end.

(** ** Auxiliary notions for the float proofs *)

(** Order on dyadic numbers [m * 2^e], stated in the integers. *)
Definition dyadic_le (m1 e1 m2 e2 : Z) : Prop :=
  m1 * 2 ^ (e1 - Z.min e1 e2) <= m2 * 2 ^ (e2 - Z.min e1 e2).

(** An integer rounded to the nearest multiple of [2^k], ties to even. *)
Definition round_shift (k n : Z) : Z :=
  if k <=? 0 then n
  else (n / 2 ^ k +
        (if Z.testbit n (k - 1) && (negb (n mod 2 ^ (k - 1) =? 0) || Z.odd (n / 2 ^ k))
         then 1 else 0)) * 2 ^ k.

(** ** Auxiliary notions for the sample engine proofs *)

(** What one pass of the loop body does to the voice it visits. *)
Definition tick_voice (v : voices) : voices :=
  if v_enable v then advance_counter v else v.

(** What one pass of the loop body leaves in [sample_buffer]. *)
Definition slot_sample (slot : option voices) : Z :=
  match slot with
  | Some v => if v_enable v then voice_sample v else 0
  | None => 0
  end.

(** ** Auxiliary notions for the pipeline proofs *)

(** The byte buffers written to the SPI master, in order. *)
Definition spi_writes (log : list spi_op) : list (list Z) :=
  flat_map (fun op => match op with
                      | spi_write_buffer_wait tx_data => [tx_data]
                      | spi_select_slave _ => []
                      end) log.

(** The sample the producer still holds back, if it is stalled. *)
Definition pending_sample (s : system) : list Z :=
  if full_queue_flag s then [sample_buffer s] else [].

(** The samples [sample_calc] computes along a run, in order. *)
Fixpoint produced (sched : list task) (s : system) : list Z :=
  match sched with
  | [] => []
  | t :: sched =>
      match t with
      | SampleCalcTask =>
          if full_queue_flag s then [] else [sample_buffer (sample_calc s)]
      | _ => []
      end ++ produced sched (task_step t s)
  end.

(** How many turns of [vMIDIInterpreter] a schedule holds. *)
Fixpoint midi_turns (sched : list task) : nat :=
  match sched with
  | [] => 0
  | MIDIInterpreter :: sched => S (midi_turns sched)
  | _ :: sched => midi_turns sched
  end.

(** The producer and the output task taking turns, [n] times each. *)
Fixpoint alternate (n : nat) : list task :=
  match n with
  | O => []
  | S n => SampleCalcTask :: PeriodicSPITask :: alternate n
  end.

(** ** Example states *)

Definition empty_queue : xQueue := mk_queue [] 100.

Definition silent_voice : voices := mk_voice false SQUARE 0 1.

(** A system at rest around a given voice bank. *)
Definition system_of (bank : list voices) : system :=
  mk_system bank false 0 0 empty_queue empty_queue false [] [].

(** Two square voices sounding in slots 0 and 1. *)
Definition two_square_voices : system :=
  system_of [mk_voice true SQUARE 0 4; mk_voice true SQUARE 0 4; silent_voice; silent_voice].

(** The scenario of the design document: one triangle voice of period 4,
    in the first slot and in the last. *)
Definition triangle_voice_4 : system :=
  system_of [mk_voice true TRI 0 4; silent_voice; silent_voice; silent_voice].

Definition triangle_voice_4_last : system :=
  system_of [silent_voice; silent_voice; silent_voice; mk_voice true TRI 0 4].

(** A producer about to compute the sample of a triangle voice while the
    one-place sample queue is occupied. *)
Definition producer_facing_full_queue : system :=
  mk_system [silent_voice; silent_voice; silent_voice; mk_voice true TRI 1 4]
            false 0 0 (mk_queue [7] 1) empty_queue false [] [].

(** Three words in the receiver, the semaphore given, and room for two
    bytes in the message queue. *)
Definition three_words_received : system :=
  mk_system [silent_voice; silent_voice; silent_voice; silent_voice] false 0 0
            empty_queue (mk_queue [] 2) true [0x190; 2; 3] [].

(** A NoteOn message (status 0x90, pitch 60, velocity 127) waiting in the
    message queue while every voice is off. *)
Definition note_on_pending : system :=
  mk_system [silent_voice; silent_voice; silent_voice; silent_voice] false 0 0
            empty_queue (mk_queue [0x90; 60; 127] 100) false [] [].

(** * Proofs *)

(** ** Binary floating point: shifting, rounding, bounds *)

Lemma iter_pos_nat {A : Type} (f : A -> A) (p : positive) (x : A) :
  SpecFloat.iter_pos f p x = Nat.iter (Pos.to_nat p) f x.
Proof.
  revert x. induction p as [p IH | p IH |]; intros x; cbn [SpecFloat.iter_pos].
  - rewrite !IH, Pos2Nat.inj_xI. 
    replace (2 * Pos.to_nat p)%nat with (Pos.to_nat p + Pos.to_nat p)%nat by lia.
    rewrite Nat.iter_succ_r, Nat.iter_add. reflexivity.
  - rewrite !IH, Pos2Nat.inj_xO.
    replace (2 * Pos.to_nat p)%nat with (Pos.to_nat p + Pos.to_nat p)%nat by lia.
    rewrite Nat.iter_add. reflexivity.
  - reflexivity.
Qed.

Lemma shr_1_nonneg (m : Z) (r s : bool) :
  0 <= m ->
  shr_1 (Build_shr_record m r s) = Build_shr_record (m / 2) (Z.odd m) (r || s).
Proof.
  intros Hm. rewrite <- Z.div2_div.
  destruct m as [| [p | p |] | p]; try reflexivity; lia.
Qed.

Lemma pow2_pos (n : Z) : 0 <= n -> 0 < 2 ^ n.
Proof. intros; apply Z.pow_pos_nonneg; lia. Qed.

Lemma sticky_succ (m k : Z) :
  0 <= k ->
  negb (m mod 2 ^ Z.succ k =? 0) = Z.testbit m k || negb (m mod 2 ^ k =? 0).
Proof.
  intros Hk.
  assert (H2 : 0 < 2 ^ k) by (apply pow2_pos; lia).
  rewrite Z.pow_succ_r, Z.mul_comm by lia.
  rewrite Z.rem_mul_r by lia.
  rewrite <- (Z.testbit_spec' m k) by lia.
  pose proof (Z.mod_pos_bound m (2 ^ k) H2).
  destruct (Z.testbit m k); cbn [Z.b2z orb];
    destruct (Z.eqb_spec (m mod 2 ^ k) 0); cbn [negb];
    match goal with |- context [?a =? 0] => destruct (Z.eqb_spec a 0) end;
    try reflexivity; nia.
Qed.

(** Shifting right [k >= 1] times: quotient, round bit, sticky bit. *)
Lemma shr_iter (k : nat) (m : Z) (r s : bool) :
  0 <= m ->
  Nat.iter (S k) shr_1 (Build_shr_record m r s) =
  Build_shr_record (m / 2 ^ Z.of_nat (S k))
                   (Z.testbit m (Z.of_nat k))
                   (r || s || negb (m mod 2 ^ Z.of_nat k =? 0)).
Proof.
  intros Hm. induction k as [| k IH].
  - unfold Nat.iter; cbn [nat_rect]. rewrite shr_1_nonneg by assumption.
    change (Z.of_nat 1) with 1. change (Z.of_nat 0) with 0.
    rewrite Z.pow_1_r, Z.pow_0_r, Z.mod_1_r, Z.bit0_odd.
    change (negb (0 =? 0)) with false. rewrite orb_false_r. reflexivity.
  - rewrite Nat.iter_succ, IH.
    rewrite shr_1_nonneg by (apply Z.div_pos; [assumption | apply pow2_pos; lia]).
    f_equal.
    + rewrite Z.div_div by (try apply pow2_pos; lia).
      f_equal. rewrite (Nat2Z.inj_succ (S k)), Z.pow_succ_r by lia. lia.
    + rewrite Z.testbit_odd, Z.shiftr_div_pow2 by lia. reflexivity.
    + rewrite Nat2Z.inj_succ, sticky_succ by lia.
      destruct r, s, (Z.testbit m (Z.of_nat k)); reflexivity.
Qed.

Lemma shr_pos (m : Z) (r s : bool) (e n : Z) :
  0 <= m -> 0 < n ->
  shr (Build_shr_record m r s) e n =
  (Build_shr_record (m / 2 ^ n) (Z.testbit m (n - 1))
                    (r || s || negb (m mod 2 ^ (n - 1) =? 0)), e + n).
Proof.
  intros Hm Hn. destruct n as [| p | p]; try lia.
  unfold shr. rewrite iter_pos_nat.
  destruct (Pos2Nat.is_succ p) as [k Hk]. rewrite Hk.
  rewrite shr_iter by assumption.
  assert (Hp : Z.pos p = Z.of_nat (S k)) by lia.
  rewrite Hp. replace (Z.of_nat (S k) - 1) with (Z.of_nat k) by lia.
  reflexivity.
Qed.

Lemma shr_nonpos (mrs : shr_record) (e n : Z) :
  n <= 0 -> shr mrs e n = (mrs, e).
Proof. intros Hn. destruct n; try reflexivity; lia. Qed.

Lemma digits2_pos_bounds (p : positive) :
  2 ^ (Z.pos (digits2_pos p) - 1) <= Z.pos p < 2 ^ Z.pos (digits2_pos p).
Proof.
  induction p as [p IH | p IH |]; cbn [digits2_pos].
  - rewrite Pos2Z.inj_succ.
    replace (Z.succ (Z.pos (digits2_pos p)) - 1) with (Z.succ (Z.pos (digits2_pos p) - 1)) by lia.
    rewrite !Z.pow_succ_r by lia. lia.
  - rewrite Pos2Z.inj_succ.
    replace (Z.succ (Z.pos (digits2_pos p)) - 1) with (Z.succ (Z.pos (digits2_pos p) - 1)) by lia.
    rewrite !Z.pow_succ_r by lia. lia.
  - simpl. lia.
Qed.

Lemma Zdigits2_bounds (m : Z) :
  0 < m -> 2 ^ (Zdigits2 m - 1) <= m < 2 ^ Zdigits2 m.
Proof.
  intros Hm. destruct m as [| p | p]; try lia. apply digits2_pos_bounds.
Qed.

Lemma Zdigits2_nonneg (m : Z) : 0 <= Zdigits2 m.
Proof. destruct m; simpl; lia. Qed.

Lemma Zdigits2_le (m k : Z) : 0 <= k -> 0 <= m < 2 ^ k -> Zdigits2 m <= k.
Proof.
  intros Hk [H0 Hm]. destruct (Z.eq_dec m 0) as [-> | Hne]; [simpl; lia |].
  pose proof (Zdigits2_bounds m ltac:(lia)) as [Hlo _].
  pose proof (Zdigits2_nonneg m).
  destruct (Z_lt_le_dec k (Zdigits2 m)) as [Hlt | Hle]; [| assumption].
  exfalso.
  assert (2 ^ k <= 2 ^ (Zdigits2 m - 1)) by (apply Z.pow_le_mono_r; lia).
  lia.
Qed.

Lemma Zdigits2_gt (m k : Z) : 0 <= k -> 2 ^ k <= m -> k < Zdigits2 m.
Proof.
  intros Hk Hm.
  assert (0 < 2 ^ k) by (apply pow2_pos; lia).
  pose proof (Zdigits2_bounds m ltac:(lia)) as [_ Hhi].
  pose proof (Zdigits2_nonneg m).
  destruct (Z_lt_le_dec k (Zdigits2 m)) as [Hlt | Hle]; [assumption |].
  exfalso.
  assert (2 ^ Zdigits2 m <= 2 ^ k) by (apply Z.pow_le_mono_r; lia).
  lia.
Qed.

Lemma round_nearest_even_bits (q : Z) (r s : bool) :
  round_nearest_even q (loc_of_shr_record (Build_shr_record q r s)) =
  q + (if r && (s || Z.odd q) then 1 else 0).
Proof.
  destruct r, s; cbn [loc_of_shr_record round_nearest_even andb orb]; try lia.
  rewrite <- Z.negb_even. destruct (Z.even q); cbn [negb]; lia.
Qed.

Lemma loc_of_shr_record_of_loc (m : Z) (l : location) :
  loc_of_shr_record (shr_record_of_loc m l) = l.
Proof. destruct l as [| []]; reflexivity. Qed.

Lemma shr_m_record_of_loc (m : Z) (l : location) : shr_m (shr_record_of_loc m l) = m.
Proof. destruct l as [| []]; reflexivity. Qed.

Lemma round_nearest_even_range (q : Z) (l : location) :
  q <= round_nearest_even q l <= q + 1.
Proof. destruct l as [| []]; cbn [round_nearest_even]; try lia. destruct (Z.even q); lia. Qed.

Lemma pow2_split (a b : Z) : 0 <= a -> 0 <= b -> 2 ^ (a + b) = 2 ^ a * 2 ^ b.
Proof. intros. apply Z.pow_add_r; lia. Qed.

Lemma dyadic_le_shift (m1 e1 m2 e2 c : Z) :
  c <= e1 -> c <= e2 ->
  dyadic_le m1 e1 m2 e2 <-> m1 * 2 ^ (e1 - c) <= m2 * 2 ^ (e2 - c).
Proof.
  intros H1 H2. unfold dyadic_le.
  set (k := Z.min e1 e2).
  assert (Hk : c <= k) by (unfold k; lia).
  assert (k <= e1 /\ k <= e2) as [Hk1 Hk2] by (unfold k; lia).
  replace (e1 - c) with ((e1 - k) + (k - c)) by lia.
  replace (e2 - c) with ((e2 - k) + (k - c)) by lia.
  rewrite !pow2_split by lia.
  assert (0 < 2 ^ (k - c)) by (apply pow2_pos; lia).
  rewrite !Z.mul_assoc. split; intros H'.
  - apply Z.mul_le_mono_nonneg_r; lia.
  - apply Z.mul_le_mono_pos_r in H'; lia.
Qed.

Lemma new_location_0 (nb_steps : Z) : new_location nb_steps 0 = loc_Exact.
Proof.
  unfold new_location, new_location_even, new_location_odd.
  destruct (Z.even nb_steps); reflexivity.
Qed.

Lemma Zdigits2_unique (m k : Z) : 0 < k -> 2 ^ (k - 1) <= m < 2 ^ k -> Zdigits2 m = k.
Proof.
  intros Hk [Hlo Hhi].
  assert (0 < 2 ^ (k - 1)) by (apply pow2_pos; lia).
  pose proof (Zdigits2_le m k ltac:(lia) ltac:(lia)).
  pose proof (Zdigits2_gt m (k - 1) ltac:(lia) Hlo). lia.
Qed.

Lemma pos_iter_xO (p q : positive) : Z.pos (Pos.iter xO p q) = Z.pos p * 2 ^ Z.pos q.
Proof.
  rewrite <- Z.shiftl_mul_pow2 by lia. cbn [Z.shiftl].
  apply (Pos.iter_swap_gen _ _ Z.pos xO (Z.mul 2)). intros a. reflexivity.
Qed.

Lemma Zdigits2_mono (a b : Z) : 0 < a <= b -> Zdigits2 a <= Zdigits2 b.
Proof.
  intros [Ha Hab].
  pose proof (Zdigits2_bounds b ltac:(lia)) as [_ Hhi].
  apply Zdigits2_le; [apply Zdigits2_nonneg | lia].
Qed.

(** The remainder modulo [2^k] splits into the round bit and what lies below it. *)
Lemma mod_pow2_round_bit (n k : Z) :
  0 < k ->
  n = n / 2 ^ k * 2 ^ k + Z.b2z (Z.testbit n (k - 1)) * 2 ^ (k - 1) + n mod 2 ^ (k - 1).
Proof.
  intros Hk.
  assert (Hh : 0 < 2 ^ (k - 1)) by (apply pow2_pos; lia).
  assert (Hpow : 2 ^ k = 2 ^ (k - 1) * 2).
  { rewrite Z.mul_comm, <- (Z.pow_succ_r 2 (k - 1)) by lia. f_equal. lia. }
  rewrite (Z.testbit_spec' n (k - 1)) by lia.
  pose proof (Z.div_mod n (2 ^ (k - 1)) ltac:(lia)) as H1.
  pose proof (Z.div_mod (n / 2 ^ (k - 1)) 2 ltac:(lia)) as H2.
  rewrite Hpow, <- Z.div_div by lia. nia.
Qed.

Section BinaryRounding.
Variables prec emax : Z.
Hypothesis Hprec : 0 < prec.
Hypothesis Hemax : prec < emax.

(** First and second stage of [binary_round_aux]: the exponent chosen
    and the mantissa kept. *)
Lemma shr_fexp_exponent (m e : Z) (l : location) :
  0 <= m -> snd (shr_fexp prec emax m e l) = Z.max e (fexp prec emax (Zdigits2 m + e)).
Proof.
  intros Hm. unfold shr_fexp.
  destruct (Z_lt_le_dec 0 (fexp prec emax (Zdigits2 m + e) - e)) as [Hn | Hn].
  - destruct l as [| []]; cbn [shr_record_of_loc]; rewrite shr_pos by assumption;
      cbn [snd]; lia.
  - rewrite shr_nonpos by assumption. cbn [snd]. lia.
Qed.

Lemma shr_fexp_mantissa (m e : Z) (l : location) :
  0 <= m ->
  shr_m (fst (shr_fexp prec emax m e l)) =
  m / 2 ^ (Z.max e (fexp prec emax (Zdigits2 m + e)) - e).
Proof.
  intros Hm. unfold shr_fexp.
  destruct (Z_lt_le_dec 0 (fexp prec emax (Zdigits2 m + e) - e)) as [Hn | Hn].
  - replace (Z.max e (fexp prec emax (Zdigits2 m + e)) - e) with (fexp prec emax (Zdigits2 m + e) - e) by lia.
    destruct l as [| []]; cbn [shr_record_of_loc]; rewrite shr_pos by assumption;
      reflexivity.
  - rewrite shr_nonpos by assumption. cbn [fst].
    replace (Z.max e (fexp prec emax (Zdigits2 m + e)) - e) with 0 by lia.
    rewrite shr_m_record_of_loc, Z.pow_0_r, Z.div_1_r. reflexivity.
Qed.

Lemma shr_fexp_exact (m e : Z) :
  0 <= m ->
  m mod 2 ^ (Z.max e (fexp prec emax (Zdigits2 m + e)) - e) = 0 ->
  loc_of_shr_record (fst (shr_fexp prec emax m e loc_Exact)) = loc_Exact.
Proof.
  intros Hm Hmod. unfold shr_fexp.
  destruct (Z_lt_le_dec 0 (fexp prec emax (Zdigits2 m + e) - e)) as [Hn | Hn].
  - replace (Z.max e (fexp prec emax (Zdigits2 m + e)) - e)
      with (fexp prec emax (Zdigits2 m + e) - e) in Hmod by lia.
    cbn [shr_record_of_loc]. rewrite shr_pos by assumption. cbn [fst].
    set (n := fexp prec emax (Zdigits2 m + e) - e) in *.
    assert (Hdiv : m = 2 ^ n * (m / 2 ^ n)).
    { pose proof (Z.div_mod m (2 ^ n)) as H. 
      assert (0 < 2 ^ n) by (apply pow2_pos; lia). lia. }
    assert (Hpow : 2 ^ n = 2 ^ (n - 1) * 2).
    { replace n with (Z.succ (n - 1)) at 1 by lia. rewrite Z.pow_succ_r by lia. lia. }
    assert (H1 : 0 < 2 ^ (n - 1)) by (apply pow2_pos; lia).
    assert (Hbit : Z.testbit m (n - 1) = false).
    { rewrite Z.testbit_false by lia. rewrite Hdiv, Hpow.
      replace (2 ^ (n - 1) * 2 * (m / (2 ^ (n - 1) * 2))) with ((2 * (m / (2 ^ (n - 1) * 2))) * 2 ^ (n - 1)) by lia.
      rewrite Z.div_mul by lia. rewrite Z.mul_comm. apply Z.mod_mul. lia. }
    assert (Hst : m mod 2 ^ (n - 1) = 0).
    { rewrite Hdiv, Hpow.
      replace (2 ^ (n - 1) * 2 * (m / (2 ^ (n - 1) * 2))) with ((2 * (m / (2 ^ (n - 1) * 2))) * 2 ^ (n - 1)) by lia.
      apply Z.mod_mul. lia. }
    rewrite Hbit, Hst. reflexivity.
  - rewrite shr_nonpos by assumption. reflexivity.
Qed.

(** The exponent chosen for a mantissa bounded by [b * 2^(eb - e)],
    [b] of at most [prec] digits, does not exceed [eb]. *)
Lemma fexp_le_bound (m e b eb : Z) :
  0 <= m -> 0 < b < 2 ^ prec -> emin prec emax <= eb -> e <= eb ->
  m <= b * 2 ^ (eb - e) ->
  Z.max e (fexp prec emax (Zdigits2 m + e)) <= eb.
Proof.
  intros Hm Hb Hemin He Hle.
  assert (Hd : Zdigits2 m <= prec + (eb - e)).
  { apply Zdigits2_le; [lia |]. split; [lia |].
    rewrite pow2_split by lia.
    assert (0 < 2 ^ (eb - e)) by (apply pow2_pos; lia). nia. }
  unfold SpecFloat.fexp. lia.
Qed.

Lemma round_aux_le (mx ex : Z) (lx : location) (b eb : Z) :
  0 <= mx -> 0 < b < 2 ^ prec -> emin prec emax <= eb -> eb <= emax - prec -> ex <= eb ->
  mx < b * 2 ^ (eb - ex) \/ (mx = b * 2 ^ (eb - ex) /\ lx = loc_Exact) ->
  binary_round_aux prec emax false mx ex lx = S754_zero false \/
  exists m e, binary_round_aux prec emax false mx ex lx = S754_finite false m e /\
              e <= eb /\ Z.pos m <= b * 2 ^ (eb - e).
Proof.
  intros Hmx Hb Hemin Hebmax Hex Hle.
  unfold binary_round_aux.
  pose proof (shr_fexp_exponent mx ex lx Hmx) as He1.
  pose proof (shr_fexp_mantissa mx ex lx Hmx) as Hm1.
  assert (Hloc1 : mx = b * 2 ^ (eb - ex) -> lx = loc_Exact ->
                  loc_of_shr_record (fst (shr_fexp prec emax mx ex lx)) = loc_Exact).
  { intros Heq ->. apply shr_fexp_exact; [assumption |].
    pose proof (fexp_le_bound mx ex b eb Hmx Hb Hemin Hex ltac:(lia)) as Hb1.
    rewrite Heq.
    replace (eb - ex) with ((eb - Z.max ex (fexp prec emax (Zdigits2 mx + ex))) +
                            (Z.max ex (fexp prec emax (Zdigits2 mx + ex)) - ex)) at 1 by lia.
    rewrite <- Heq.
    rewrite pow2_split by lia. rewrite Z.mul_assoc. apply Z.mod_mul.
    apply Z.pow_nonzero; lia. }
  destruct (shr_fexp prec emax mx ex lx) as [mrs1 e1]. cbn [fst snd] in *.
  assert (He1b : e1 <= eb).
  { rewrite He1. apply (fexp_le_bound mx ex b eb); try assumption. lia. }
  assert (Hex1 : ex <= e1) by lia.
  assert (Hsplit : 2 ^ (eb - ex) = 2 ^ (eb - e1) * 2 ^ (e1 - ex)).
  { rewrite <- pow2_split by lia. f_equal. lia. }
  assert (Hp1 : 0 < 2 ^ (e1 - ex)) by (apply pow2_pos; lia).
  assert (Hp2 : 0 < 2 ^ (eb - e1)) by (apply pow2_pos; lia).
  rewrite <- He1 in Hm1.
  set (mr := round_nearest_even (shr_m mrs1) (loc_of_shr_record mrs1)).
  assert (Hmr : 0 <= mr <= b * 2 ^ (eb - e1)).
  { pose proof (round_nearest_even_range (shr_m mrs1) (loc_of_shr_record mrs1)) as Hr.
    fold mr in Hr.
    assert (0 <= shr_m mrs1) by (rewrite Hm1; apply Z.div_pos; lia).
    split; [lia |].
    destruct Hle as [Hlt | [Heq Hl]].
    - assert (shr_m mrs1 < b * 2 ^ (eb - e1)); [| lia].
      rewrite Hm1. apply Z.div_lt_upper_bound; [lia |].
      rewrite Hsplit in Hlt. lia.
    - unfold mr. rewrite (Hloc1 Heq Hl). cbn [round_nearest_even].
      rewrite Hm1, Heq, Hsplit, Z.mul_assoc, Z.div_mul by lia. lia. }
  clearbody mr.
  pose proof (shr_fexp_exponent mr e1 loc_Exact ltac:(lia)) as He2.
  pose proof (shr_fexp_mantissa mr e1 loc_Exact ltac:(lia)) as Hm2.
  destruct (shr_fexp prec emax mr e1 loc_Exact) as [mrs2 e2]. cbn [fst snd] in *.
  assert (He2b : e2 <= eb).
  { rewrite He2. apply (fexp_le_bound mr e1 b eb); try assumption; lia. }
  assert (He12 : e1 <= e2) by lia.
  rewrite <- He2 in Hm2.
  assert (Hsplit2 : 2 ^ (eb - e1) = 2 ^ (eb - e2) * 2 ^ (e2 - e1)).
  { rewrite <- pow2_split by lia. f_equal. lia. }
  assert (Hp3 : 0 < 2 ^ (e2 - e1)) by (apply pow2_pos; lia).
  assert (Hp4 : 0 < 2 ^ (eb - e2)) by (apply pow2_pos; lia).
  assert (Hm2b : 0 <= shr_m mrs2 <= b * 2 ^ (eb - e2)).
  { rewrite Hm2. split; [apply Z.div_pos; lia |].
    apply Z.div_le_upper_bound; [lia |]. rewrite Hsplit2 in Hmr. lia. }
  destruct (shr_m mrs2) as [| m | m].
  - left. reflexivity.
  - right. exists m, e2.
    destruct (Z.leb_spec e2 (emax - prec)); [| lia].
    repeat split; [assumption | lia].
  - lia.
Qed.

Lemma SFdiv_core_binary_eq (m1 e1 m2 e2 : Z) :
  0 < m2 ->
  let e' := Z.min (fexp prec emax (Zdigits2 m1 + e1 - (Zdigits2 m2 + e2))) (e1 - e2) in
  let m' := m1 * 2 ^ (e1 - e2 - e') in
  SFdiv_core_binary prec emax m1 e1 m2 e2 = (m' / m2, e', new_location m2 (m' mod m2)).
Proof.
  intros Hm2 e' m'. unfold SFdiv_core_binary. fold e'.
  assert (Hs : 0 <= e1 - e2 - e') by (unfold e'; lia).
  assert (Hm' : match e1 - e2 - e' with
                | Z.pos _ => Z.shiftl m1 (e1 - e2 - e')
                | 0 => m1
                | Z.neg _ => 0
                end = m').
  { unfold m'. destruct (e1 - e2 - e') as [| p | p] eqn:E.
    - rewrite Z.pow_0_r. lia.
    - rewrite Z.shiftl_mul_pow2 by lia. reflexivity.
    - lia. }
  rewrite Hm'. unfold Z.div, Z.modulo.
  destruct (Z.div_eucl m' m2) as [q r]. reflexivity.
Qed.

(** Dividing a positive float by one that is at least as large gives at most 1. *)
Lemma SFdiv_le_1 (m1 : positive) (e1 : Z) (m2 : positive) (e2 : Z) :
  dyadic_le (Z.pos m1) e1 (Z.pos m2) e2 ->
  SFdiv prec emax (S754_finite false m1 e1) (S754_finite false m2 e2) = S754_zero false \/
  exists m e, SFdiv prec emax (S754_finite false m1 e1) (S754_finite false m2 e2)
              = S754_finite false m e /\ e <= 0 /\ Z.pos m <= 2 ^ (- e).
Proof.
  intros Hle. cbn [SFdiv xorb].
  rewrite SFdiv_core_binary_eq by lia.
  set (e' := Z.min (fexp prec emax (Zdigits2 (Z.pos m1) + e1 - (Zdigits2 (Z.pos m2) + e2))) (e1 - e2)).
  set (m' := Z.pos m1 * 2 ^ (e1 - e2 - e')).
  cbv zeta.
  assert (Hdig : Zdigits2 (Z.pos m1) + e1 - (Zdigits2 (Z.pos m2) + e2) <= 0).
  { pose proof (Zdigits2_bounds (Z.pos m1) ltac:(lia)) as [Hlo _].
    pose proof (Zdigits2_bounds (Z.pos m2) ltac:(lia)) as [_ Hhi].
    pose proof (Zdigits2_nonneg (Z.pos m2)).
    assert (0 < Zdigits2 (Z.pos m1)) by (simpl; lia).
    set (c := Z.min e1 e2). unfold dyadic_le in Hle. fold c in Hle.
    assert (c <= e1 /\ c <= e2) as [Hc1 Hc2] by (unfold c; lia).
    assert (Hp1 : 0 < 2 ^ (e1 - c)) by (apply pow2_pos; lia).
    assert (Hp2 : 0 < 2 ^ (e2 - c)) by (apply pow2_pos; lia).
    assert (Hlt : 2 ^ ((Zdigits2 (Z.pos m1) - 1) + (e1 - c))
                  < 2 ^ (Zdigits2 (Z.pos m2) + (e2 - c))).
    { rewrite !pow2_split by lia. nia. }
    apply Z.pow_lt_mono_r_iff in Hlt; lia. }
  assert (He' : e' <= 0).
  { unfold e', SpecFloat.fexp, SpecFloat.emin. lia. }
  assert (He'2 : e' <= e1 - e2) by (unfold e'; lia).
  assert (Hm' : m' <= Z.pos m2 * 2 ^ (- e')).
  { unfold m'.
    apply (dyadic_le_shift _ _ _ _ (e' + e2)) in Hle; [| lia | lia].
    replace (e1 - (e' + e2)) with (e1 - e2 - e') in Hle by lia.
    replace (e2 - (e' + e2)) with (- e') in Hle by lia. exact Hle. }
  assert (Hp : 0 < 2 ^ (- e')) by (apply pow2_pos; lia).
  assert (Hm'0 : 0 <= m').
  { unfold m'. assert (0 < 2 ^ (e1 - e2 - e')) by (apply pow2_pos; lia). lia. }
  destruct (round_aux_le (m' / Z.pos m2) e'
              (new_location (Z.pos m2) (m' mod Z.pos m2)) 1 0)
    as [Hz | (m & e & Hf & He & Hm)].
  - apply Z.div_pos; lia.
  - split; [lia |]. apply Z.pow_gt_1; lia.
  - unfold SpecFloat.emin; lia.
  - lia.
  - assumption.
  - rewrite Z.sub_0_l, Z.mul_1_l.
    assert (Hq : m' / Z.pos m2 <= 2 ^ (- e')) by (apply Z.div_le_upper_bound; lia).
    destruct (Z.eq_dec (m' / Z.pos m2) (2 ^ (- e'))) as [Heq | Hne]; [right | left; lia].
    split; [assumption |].
    pose proof (Z.div_mod m' (Z.pos m2) ltac:(lia)) as Hdm.
    pose proof (Z.mod_pos_bound m' (Z.pos m2) ltac:(lia)) as Hmod.
    rewrite Heq in Hdm.
    replace (m' mod Z.pos m2) with 0 by lia. apply new_location_0.
  - left. exact Hz.
  - right. exists m, e. rewrite Z.sub_0_l, Z.mul_1_l in Hm. auto.
Qed.

(** Multiplying [b] (an integer of at most [prec] digits, held as a float)
    by a float that is at most 1 gives at most [b]. *)
Lemma SFmul_le (mx : positive) (ex : Z) (my : positive) (ey : Z) (b : Z) :
  0 < b < 2 ^ prec -> ex <= 0 -> Z.pos mx = b * 2 ^ (- ex) ->
  ey <= 0 -> Z.pos my <= 2 ^ (- ey) ->
  SFmul prec emax (S754_finite false mx ex) (S754_finite false my ey) = S754_zero false \/
  exists m e, SFmul prec emax (S754_finite false mx ex) (S754_finite false my ey)
              = S754_finite false m e /\ e <= 0 /\ Z.pos m <= b * 2 ^ (- e).
Proof.
  intros Hb Hex Hmx Hey Hmy. cbn [SFmul xorb].
  assert (Hp1 : 0 < 2 ^ (- ex)) by (apply pow2_pos; lia).
  assert (Hp2 : 0 < 2 ^ (- ey)) by (apply pow2_pos; lia).
  assert (Hle : Z.pos (mx * my) <= b * 2 ^ (0 - (ex + ey))).
  { rewrite Pos2Z.inj_mul, Hmx.
    replace (0 - (ex + ey)) with (- ex + - ey) by lia.
    rewrite pow2_split by lia. nia. }
  destruct (round_aux_le (Z.pos (mx * my)) (ex + ey) loc_Exact b 0)
    as [Hz | (m & e & Hf & He & Hm)]; try lia; try assumption.
  - unfold SpecFloat.emin; lia.
  - destruct (Z.eq_dec (Z.pos (mx * my)) (b * 2 ^ (0 - (ex + ey)))); [right | left]; auto; lia.
  - left. exact Hz.
  - right. exists m, e. rewrite Z.sub_0_l in Hm. auto.
Qed.

Lemma trunc_le (m : positive) (e b : Z) :
  e <= 0 -> Z.pos m <= b * 2 ^ (- e) ->
  0 <= (if 0 <=? e then Z.pos m * 2 ^ e else Z.pos m / 2 ^ (- e)) <= b.
Proof.
  intros He Hm.
  assert (Hp : 0 < 2 ^ (- e)) by (apply pow2_pos; lia).
  destruct (Z.leb_spec 0 e).
  - assert (e = 0) as -> by lia. simpl in *. lia.
  - split; [apply Z.div_pos; lia | apply Z.div_le_upper_bound; lia].
Qed.

Lemma shr_fexp_noshift (m e : Z) (l : location) :
  fexp prec emax (Zdigits2 m + e) <= e ->
  shr_fexp prec emax m e l = (shr_record_of_loc m l, e).
Proof. intros H. unfold shr_fexp. apply shr_nonpos. lia. Qed.

Lemma shr_fexp_shift (m e : Z) :
  0 <= m -> e < fexp prec emax (Zdigits2 m + e) ->
  let n := fexp prec emax (Zdigits2 m + e) - e in
  shr_fexp prec emax m e loc_Exact =
  (Build_shr_record (m / 2 ^ n) (Z.testbit m (n - 1)) (negb (m mod 2 ^ (n - 1) =? 0)),
   fexp prec emax (Zdigits2 m + e)).
Proof.
  intros Hm H n. unfold shr_fexp. cbn [shr_record_of_loc].
  rewrite shr_pos by lia. fold n. cbn [orb]. f_equal. lia.
Qed.

(** A mantissa that already sits at its exponent is kept as it is. *)
Lemma round_aux_canonical (m : positive) (e : Z) :
  fexp prec emax (Zdigits2 (Z.pos m) + e) <= e -> e <= emax - prec ->
  binary_round_aux prec emax false (Z.pos m) e loc_Exact = S754_finite false m e.
Proof.
  intros Hc He. unfold binary_round_aux.
  rewrite shr_fexp_noshift by assumption.
  cbn [shr_record_of_loc shr_m loc_of_shr_record round_nearest_even].
  rewrite shr_fexp_noshift by assumption.
  cbn [shr_record_of_loc shr_m].
  destruct (Z.leb_spec e (emax - prec)); [reflexivity | lia].
Qed.

(** The float of a positive integer: finite, positive, and its value
    (scaled by [2^(prec-1)] to stay in the integers) is the integer rounded
    to [prec] significant bits. *)
Lemma binary_normalize_pos (n : Z) :
  0 < n -> Zdigits2 n < emax ->
  exists m e, binary_normalize prec emax n 0 false = S754_finite false m e /\
              1 - prec <= e /\
              Z.pos m * 2 ^ (e + prec - 1) =
              round_shift (Zdigits2 n - prec) n * 2 ^ (prec - 1).
Proof.
  intros Hn Hd. destruct n as [| p | p]; try lia.
  cbn [binary_normalize]. unfold binary_round.
  pose proof (Zdigits2_bounds (Z.pos p) ltac:(lia)) as Hb.
  change (Z.pos (digits2_pos p)) with (Zdigits2 (Z.pos p)).
  set (d := Zdigits2 (Z.pos p)) in *.
  assert (Hd1 : 0 < d) by (unfold d; simpl; lia).
  assert (Hemin : emin prec emax <= 1 - prec) by (unfold SpecFloat.emin; lia).
  assert (Hf : fexp prec emax (d + 0) = d - prec) by (unfold SpecFloat.fexp; fold (emin prec emax); lia).
  rewrite Hf. unfold shl_align, round_shift.
  destruct (Z.leb_spec (d - prec) 0) as [Hle | Hgt].
  - (* at most [prec] digits: exact *)
    destruct (d - prec - 0) as [| q | q] eqn:E; try lia.
    + exists p, 0. rewrite round_aux_canonical.
      * split; [reflexivity | split; [lia |]]. reflexivity.
      * fold d. unfold SpecFloat.fexp; fold (emin prec emax). lia.
      * lia.
    + assert (Hq : Z.pos q = prec - d) by lia.
      assert (Hmz : Z.pos (Pos.iter xO p q) = Z.pos p * 2 ^ (prec - d))
        by (rewrite pos_iter_xO, Hq; reflexivity).
      assert (Hp : 0 < 2 ^ (prec - d)) by (apply pow2_pos; lia).
      assert (Hdz : Zdigits2 (Z.pos (Pos.iter xO p q)) = prec).
      { apply Zdigits2_unique; [lia |]. rewrite Hmz.
        assert (E1 : 2 ^ (prec - 1) = 2 ^ (d - 1) * 2 ^ (prec - d))
          by (rewrite <- pow2_split by lia; f_equal; lia).
        assert (E2 : 2 ^ prec = 2 ^ d * 2 ^ (prec - d))
          by (rewrite <- pow2_split by lia; f_equal; lia).
        rewrite E1, E2. nia. }
      exists (Pos.iter xO p q), (d - prec). rewrite round_aux_canonical.
      * split; [reflexivity | split; [lia |]]. rewrite Hmz.
        replace (d - prec + prec - 1) with (d - 1) by lia.
        assert (E3 : 2 ^ (prec - 1) = 2 ^ (prec - d) * 2 ^ (d - 1))
          by (rewrite <- pow2_split by lia; f_equal; lia).
        rewrite E3. ring.
      * rewrite Hdz. unfold SpecFloat.fexp; fold (emin prec emax). lia.
      * lia.
  - (* more than [prec] digits: rounded *)
    destruct (d - prec - 0) as [| q | q] eqn:E; try lia.
    set (k := d - prec) in *.
    unfold binary_round_aux.
    assert (Hfk : fexp prec emax (Zdigits2 (Z.pos p) + 0) = k) by (fold d; exact Hf).
    rewrite shr_fexp_shift by lia.
    rewrite Hfk, Z.sub_0_r.
    cbn [shr_m].
    rewrite round_nearest_even_bits.
    set (q' := Z.pos p / 2 ^ k).
    set (up := if Z.testbit (Z.pos p) (k - 1) &&
                  (negb (Z.pos p mod 2 ^ (k - 1) =? 0) || Z.odd q') then 1 else 0).
    assert (Hup : 0 <= up <= 1) by (unfold up; destruct (_ && _); lia).
    assert (Hpk : 0 < 2 ^ k) by (apply pow2_pos; lia).
    assert (Hq' : 2 ^ (prec - 1) <= q' < 2 ^ prec).
    { unfold q'. split.
      - apply Z.div_le_lower_bound; [lia |].
        rewrite Z.mul_comm, <- pow2_split by lia.
        replace (prec - 1 + k) with (d - 1) by lia. lia.
      - apply Z.div_lt_upper_bound; [lia |].
        rewrite <- pow2_split by lia.
        replace (k + prec) with d by lia. lia. }
    assert (Hpp : 0 < 2 ^ (prec - 1)) by (apply pow2_pos; lia).
    destruct (Z.eq_dec (q' + up) (2 ^ prec)) as [Hov | Hnov].
    + (* the mantissa overflowed to [2^prec] *)
      assert (Hdr : Zdigits2 (q' + up) = prec + 1).
      { apply Zdigits2_unique; [lia |]. rewrite Hov.
        replace (prec + 1 - 1) with prec by lia.
        rewrite (pow2_split prec 1) by lia. lia. }
      assert (Hf2 : fexp prec emax (Zdigits2 (q' + up) + k) = k + 1)
        by (rewrite Hdr; unfold SpecFloat.fexp; fold (emin prec emax); lia).
      rewrite shr_fexp_shift by lia.
      rewrite Hf2. replace (k + 1 - k) with 1 by lia.
      cbn [shr_m]. rewrite Hov, Z.pow_1_r.
      replace (2 ^ prec) with (2 ^ (prec - 1) * 2)
        by (rewrite Z.mul_comm, <- (Z.pow_succ_r 2 (prec - 1)) by lia; f_equal; lia).
      rewrite Z.div_mul by lia.
      destruct (2 ^ (prec - 1)) as [| m | m] eqn:Em; try lia.
      exists m, (k + 1).
      destruct (Z.leb_spec (k + 1) (emax - prec)); [| lia].
      split; [reflexivity | split; [lia |]].
      replace (k + 1 + prec - 1) with (1 + k + (prec - 1)) by lia.
      rewrite !pow2_split by lia. rewrite Z.pow_1_r. lia.
    + assert (Hdr : Zdigits2 (q' + up) = prec)
        by (apply Zdigits2_unique; lia).
      assert (Hf2 : fexp prec emax (Zdigits2 (q' + up) + k) = k)
        by (rewrite Hdr; unfold SpecFloat.fexp; fold (emin prec emax); lia).
      rewrite shr_fexp_noshift by lia.
      cbn [shr_record_of_loc shr_m].
      destruct (q' + up) as [| m | m] eqn:Em; try lia.
      exists m, k.
      destruct (Z.leb_spec k (emax - prec)); [| lia].
      split; [reflexivity | split; [lia |]].
      replace (k + prec - 1) with (k + (prec - 1)) by lia.
      rewrite pow2_split by lia. lia.
Qed.

Lemma round_shift_mono (a b : Z) :
  0 < a <= b ->
  round_shift (Zdigits2 a - prec) a <= round_shift (Zdigits2 b - prec) b.
Proof.
  intros [Ha Hab].
  pose proof (Zdigits2_mono a b ltac:(lia)) as Hd.
  pose proof (Zdigits2_bounds a ltac:(lia)) as [Halo Hahi].
  pose proof (Zdigits2_bounds b ltac:(lia)) as [Hblo Hbhi].
  set (da := Zdigits2 a) in *. set (db := Zdigits2 b) in *.
  assert (Hda : 0 < da) by (unfold da; destruct a; simpl; lia).
  unfold round_shift.
  destruct (Z.leb_spec (db - prec) 0) as [Hkb | Hkb].
  { destruct (Z.leb_spec (da - prec) 0); lia. }
  set (kb := db - prec) in *.
  assert (Hpkb : 0 < 2 ^ kb) by (apply pow2_pos; lia).
  assert (Hpp : 0 < 2 ^ (prec - 1)) by (apply pow2_pos; lia).
  set (upb := if Z.testbit b (kb - 1) && (negb (b mod 2 ^ (kb - 1) =? 0) || Z.odd (b / 2 ^ kb))
              then 1 else 0).
  assert (Hupb : 0 <= upb <= 1)
    by (unfold upb; match goal with |- context [if ?c then _ else _] => destruct c end; lia).
  assert (Hqb : 2 ^ (prec - 1) <= b / 2 ^ kb).
  { apply Z.div_le_lower_bound; [lia |].
    rewrite Z.mul_comm, <- pow2_split by lia.
    replace (prec - 1 + kb) with (db - 1) by (unfold kb; lia). lia. }
  destruct (Z.eq_dec da db) as [Heq | Hne].
  - (* same binade: same shift *)
    rewrite Heq. fold kb.
    destruct (Z.leb_spec kb 0); [lia |].
    fold upb.
    set (upa := if Z.testbit a (kb - 1) && (negb (a mod 2 ^ (kb - 1) =? 0) || Z.odd (a / 2 ^ kb))
                then 1 else 0).
    assert (Hupa : 0 <= upa <= 1)
      by (unfold upa; match goal with |- context [if ?c then _ else _] => destruct c end; lia).
    assert (Hq : a / 2 ^ kb <= b / 2 ^ kb) by (apply Z.div_le_mono; lia).
    apply Z.mul_le_mono_nonneg_r; [lia |].
    destruct (Z.eq_dec (a / 2 ^ kb) (b / 2 ^ kb)) as [Hqeq | Hqne]; [| lia].
    rewrite <- Hqeq. apply Z.add_le_mono_l.
    pose proof (mod_pow2_round_bit a kb ltac:(lia)) as Ea.
    pose proof (mod_pow2_round_bit b kb ltac:(lia)) as Eb.
    assert (Hh : 0 < 2 ^ (kb - 1)) by (apply pow2_pos; lia).
    pose proof (Z.mod_pos_bound a (2 ^ (kb - 1)) Hh) as Hra.
    pose proof (Z.mod_pos_bound b (2 ^ (kb - 1)) Hh) as Hrb.
    unfold upa, upb. rewrite <- Hqeq. rewrite <- Hqeq in Eb.
    destruct (Z.testbit a (kb - 1)), (Z.testbit b (kb - 1)); cbn [Z.b2z andb] in *;
      try lia.
    + destruct (Z.eqb_spec (a mod 2 ^ (kb - 1)) 0), (Z.eqb_spec (b mod 2 ^ (kb - 1)) 0);
        cbn [negb orb]; try lia; destruct (Z.odd (a / 2 ^ kb)); lia.
    + match goal with |- context [if ?c then _ else _] => destruct c end; lia.
  - (* a strictly smaller binade *)
    assert (Hlt : da <= db - 1) by lia.
    assert (Hmid : 2 ^ da <= 2 ^ (db - 1)) by (apply Z.pow_le_mono_r; lia).
    assert (Hb' : 2 ^ (db - 1) <= (b / 2 ^ kb + upb) * 2 ^ kb).
    { replace (db - 1) with (prec - 1 + kb) by (unfold kb; lia).
      rewrite pow2_split by lia. nia. }
    assert (Ha' : (if da - prec <=? 0 then a
                   else (a / 2 ^ (da - prec) +
                         (if Z.testbit a (da - prec - 1) &&
                             (negb (a mod 2 ^ (da - prec - 1) =? 0) ||
                              Z.odd (a / 2 ^ (da - prec)))
                          then 1 else 0)) * 2 ^ (da - prec)) <= 2 ^ da); [| lia].
    destruct (Z.leb_spec (da - prec) 0); [lia |].
    set (ka := da - prec) in *.
    assert (Hpka : 0 < 2 ^ ka) by (apply pow2_pos; lia).
    assert (Hqa : a / 2 ^ ka < 2 ^ prec).
    { apply Z.div_lt_upper_bound; [lia |].
      rewrite <- pow2_split by lia. replace (ka + prec) with da by (unfold ka; lia). lia. }
    assert (E : 2 ^ da = 2 ^ prec * 2 ^ ka)
      by (rewrite <- pow2_split by lia; f_equal; unfold ka; lia).
    rewrite E.
    apply Z.mul_le_mono_nonneg_r; [lia |].
    match goal with |- context [if ?c then _ else _] => destruct c end; lia.
Qed.

(** Conversion from integers is monotone on the positive integers. *)
Lemma binary_normalize_le (a b : Z) :
  0 < a <= b -> Zdigits2 b < emax ->
  exists ma ea mb eb,
    binary_normalize prec emax a 0 false = S754_finite false ma ea /\
    binary_normalize prec emax b 0 false = S754_finite false mb eb /\
    dyadic_le (Z.pos ma) ea (Z.pos mb) eb.
Proof.
  intros Hab Hdb.
  pose proof (Zdigits2_mono a b Hab) as Hd.
  destruct (binary_normalize_pos a ltac:(lia) ltac:(lia))
    as (ma & ea & Ea & Hea & Va).
  destruct (binary_normalize_pos b ltac:(lia) ltac:(lia))
    as (mb & eb & Eb & Heb & Vb).
  exists ma, ea, mb, eb. split; [assumption | split; [assumption |]].
  apply (dyadic_le_shift _ _ _ _ (1 - prec)); [lia | lia |].
  replace (ea - (1 - prec)) with (ea + prec - 1) by lia.
  replace (eb - (1 - prec)) with (eb + prec - 1) by lia.
  rewrite Va, Vb.
  apply Z.mul_le_mono_nonneg_r; [apply Z.pow_nonneg; lia |].
  apply round_shift_mono; assumption.
Qed.

End BinaryRounding.

(** ** The oscillator *)

Lemma float32_prec : 0 < Float32.prec.
Proof. reflexivity. Qed.

Lemma float32_emax : Float32.prec < Float32.emax.
Proof. reflexivity. Qed.

(** Any [long] of up to 127 value bits converts to a finite float. *)
Lemma long_digits (n : Z) : 0 < n < 2 ^ 127 -> Zdigits2 n < Float32.emax.
Proof.
  intros [H0 H1].
  assert (Zdigits2 n <= 127); [| unfold Float32.emax; lia].
  apply Zdigits2_le; lia.
Qed.

Lemma to_uint16_le (f : spec_float) (b : Z) :
  b < 65536 ->
  f = S754_zero false \/
  (exists m e, f = S754_finite false m e /\ e <= 0 /\ Z.pos m <= b * 2 ^ (- e)) ->
  0 <= b ->
  0 <= Float32.to_uint16 f <= b.
Proof.
  intros Hb [-> | (m & e & -> & He & Hm)] Hb0; unfold Float32.to_uint16, Float32.trunc.
  - unfold u16. rewrite Z.mod_0_l; lia.
  - cbn [cond_Zopp]. pose proof (trunc_le m e b He Hm) as Ht.
    unfold u16. rewrite Z.mod_small; lia.
Qed.

Lemma fraction_of_FFF_range (num den : Z) :
  0 <= num <= den -> 1 <= den < 2 ^ 127 ->
  0 <= fraction_of_FFF num den <= 4095.
Proof.
  intros Hnum Hden. unfold fraction_of_FFF.
  change (Float32.of_long 4095) with (S754_finite false 16773120 (-12)).
  apply to_uint16_le; [lia | | lia].
  unfold Float32.mul, Float32.div, Float32.of_long.
  destruct (Z.eq_dec num 0) as [-> | Hne].
  - destruct (binary_normalize_pos Float32.prec Float32.emax float32_prec float32_emax den
                ltac:(lia) (long_digits den ltac:(lia))) as (m & e & -> & _).
    left. reflexivity.
  - destruct (binary_normalize_le Float32.prec Float32.emax float32_prec float32_emax
                num den ltac:(lia) (long_digits den ltac:(lia)))
      as (mn & en & md & ed & -> & -> & Hle).
    destruct (SFdiv_le_1 Float32.prec Float32.emax float32_prec float32_emax
                mn en md ed Hle) as [-> | (m & e & -> & He & Hm)].
    + left. reflexivity.
    + apply (SFmul_le Float32.prec Float32.emax float32_prec float32_emax); try assumption.
      * split; [lia | reflexivity].
      * lia.
      * reflexivity.
Qed.

Lemma add_sample_0 (x : Z) : 0 <= x < 65536 -> add_sample x 0 = x.
Proof.
  intros Hx. unfold add_sample, u16.
  rewrite (Z.mod_small x) by lia. rewrite Z.add_0_l. apply Z.mod_small. lia.
Qed.

Lemma shiftr2_range (x : Z) : 0 <= x <= 4095 -> 0 <= Z.shiftr x 2 <= 1023.
Proof.
  intros Hx. rewrite Z.shiftr_div_pow2 by lia. change (2 ^ 2) with 4.
  pose proof (Z.div_pos x 4 ltac:(lia) ltac:(lia)).
  pose proof (Z.div_lt_upper_bound x 4 1024 ltac:(lia) ltac:(lia)). lia.
Qed.

Lemma ramp_range (num den : Z) :
  0 <= num <= den -> 1 <= den < 2 ^ 127 ->
  0 <= add_sample (Z.shiftr (fraction_of_FFF num den) 2) 0 <= 1023.
Proof.
  intros Hn Hd.
  pose proof (shiftr2_range _ (fraction_of_FFF_range num den Hn Hd)).
  rewrite add_sample_0; lia.
Qed.

(** C5.  For each of the three waveforms, every period from 1 up to the
    largest [long] and every counter between 0 and the period, the
    amplitude that the loop body of [sample_calc] computes for the voice
    lies between 0 and 0x3FF. *)
Theorem voice_sample_range (en : bool) (w : wave_type) (counter period : Z) :
  1 <= period <= LONG_MAX -> 0 <= counter <= period ->
  0 <= voice_sample (mk_voice en w counter period) <= 0x3FF.
Proof.
  intros Hp Hc. unfold voice_sample, wave_square, wave_saw, wave_tri.
  cbn [v_type v_counter v_period].
  assert (Hwide : 1 <= period < 2 ^ 127).
  { assert (2 ^ 31 <= 2 ^ 127) by (apply Z.pow_le_mono_r; lia).
    change (2 ^ 31) with 2147483648 in *. unfold LONG_MAX in Hp. lia. }
  assert (Hhalf : Z.shiftr period 1 = period / 2)
    by (rewrite Z.shiftr_div_pow2 by lia; reflexivity).
  pose proof (Z.div_mod period 2 ltac:(lia)) as Hdm.
  pose proof (Z.mod_pos_bound period 2 ltac:(lia)) as Hmb.
  destruct w; cbn [wave_type_eqb].
  - destruct (counter <=? Z.quot period 2); [rewrite add_sample_0 |];
      change (Z.shiftr 0xFFF 2) with 1023; lia.
  - apply ramp_range; [assumption | exact Hwide].
  - rewrite Hhalf. destruct (Z.leb_spec counter (period / 2)).
    + apply ramp_range; [| exact Hwide]. rewrite Z.shiftl_mul_pow2 by lia. lia.
    + destruct (Z.gtb_spec counter (period / 2)); [| lia].
      apply ramp_range; [| exact Hwide]. rewrite Z.shiftl_mul_pow2 by lia. lia.
Qed.

Lemma voice_sample_range_witness :
  0 <= voice_sample (mk_voice true TRI 3 5) <= 0x3FF.
Proof.
  apply (voice_sample_range true TRI 3 5); unfold LONG_MAX; lia.
Defined.

(** ** The sample engine *)

Lemma sample_calc_body_voices (s : system) (k : nat) :
  active_voices (sample_calc_body s) !! k =
  if decide (k = Z.to_nat (j s)) then tick_voice <$> active_voices s !! k
  else active_voices s !! k.
Proof.
  unfold sample_calc_body. cbn [active_voices set_sample_buffer j].
  destruct (active_voices s !! Z.to_nat (j s)) as [v |] eqn:Hv.
  - unfold tick_voice. destruct (v_enable v) eqn:He; cbn [active_voices set_sample_buffer set_active_voices j].
    + destruct (decide (k = Z.to_nat (j s))) as [-> | Hne].
      * rewrite Hv. cbn [fmap option_fmap option_map]. rewrite He.
        apply list_lookup_insert_eq. eapply lookup_lt_Some; eassumption.
      * apply list_lookup_insert_ne. congruence.
    + destruct (decide (k = Z.to_nat (j s))) as [-> | Hne]; [| reflexivity].
      rewrite Hv. cbn. rewrite He. reflexivity.
  - cbn [active_voices set_sample_buffer].
    destruct (decide (k = Z.to_nat (j s))) as [-> | Hne]; [| reflexivity].
    rewrite Hv. reflexivity.
Qed.

Lemma sample_calc_body_sample (s : system) :
  sample_buffer (sample_calc_body s) = slot_sample (active_voices s !! Z.to_nat (j s)).
Proof.
  unfold sample_calc_body, slot_sample. cbn [active_voices set_sample_buffer j].
  destruct (active_voices s !! Z.to_nat (j s)) as [v |]; [| reflexivity].
  destruct (v_enable v); reflexivity.
Qed.

Lemma tick_voice_enable (v : voices) : v_enable (tick_voice v) = v_enable v.
Proof.
  unfold tick_voice, advance_counter.
  destruct (v_enable v) eqn:E; [destruct (_ <? _); reflexivity | exact E].
Qed.

Lemma tick_voice_type (v : voices) : v_type (tick_voice v) = v_type v.
Proof. unfold tick_voice, advance_counter. destruct (v_enable v); [| reflexivity]. destruct (_ <? _); reflexivity. Qed.

Lemma tick_voice_period (v : voices) : v_period (tick_voice v) = v_period v.
Proof. unfold tick_voice, advance_counter. destruct (v_enable v); [| reflexivity]. destruct (_ <? _); reflexivity. Qed.

Lemma tick_voice_disabled (v : voices) : v_enable v = false -> tick_voice v = v.
Proof. unfold tick_voice. intros ->. reflexivity. Qed.

Lemma tick_voice_counter (v : voices) :
  v_enable v = true ->
  v_counter (tick_voice v) = if v_counter v <? v_period v then v_counter v + 1 else 0.
Proof. unfold tick_voice, advance_counter. intros ->. destruct (_ <? _); reflexivity. Qed.

Lemma sample_calc_unfold (s : system) :
  sample_calc s =
  set_j 4 (sample_calc_body (set_j 3 (sample_calc_body (set_j 2
           (sample_calc_body (set_j 1 (sample_calc_body (set_j 0 s)))))))).
Proof. reflexivity. Qed.

Lemma active_voices_set_j (x : Z) (s : system) :
  active_voices (set_j x s) = active_voices s.
Proof. reflexivity. Qed.

Lemma sample_buffer_set_j (x : Z) (s : system) :
  sample_buffer (set_j x s) = sample_buffer s.
Proof. reflexivity. Qed.

Lemma j_set_j (x : Z) (s : system) : j (set_j x s) = x.
Proof. reflexivity. Qed.

Lemma sample_calc_body_at (s : system) (i : Z) (k : nat) :
  active_voices (sample_calc_body (set_j i s)) !! k =
  if decide (k = Z.to_nat i) then tick_voice <$> active_voices s !! k
  else active_voices s !! k.
Proof. rewrite sample_calc_body_voices. cbn [j set_j active_voices]. reflexivity. Qed.

(** The voices after one call: slots 0 to 3 were visited once each. *)
Lemma sample_calc_voices (s : system) (k : nat) :
  active_voices (sample_calc s) !! k =
  if decide (k < 4)%nat then tick_voice <$> active_voices s !! k
  else active_voices s !! k.
Proof.
  rewrite sample_calc_unfold, active_voices_set_j.
  rewrite !sample_calc_body_at.
  change (Z.to_nat 0) with 0%nat. change (Z.to_nat 1) with 1%nat.
  change (Z.to_nat 2) with 2%nat. change (Z.to_nat 3) with 3%nat.
  repeat case_decide; try lia; reflexivity.
Qed.

Lemma sample_calc_sample_buffer (s : system) :
  sample_buffer (sample_calc s) = slot_sample (active_voices s !! 3%nat).
Proof.
  rewrite sample_calc_unfold, sample_buffer_set_j.
  rewrite sample_calc_body_sample, active_voices_set_j, j_set_j.
  change (Z.to_nat 3) with 3%nat.
  rewrite !sample_calc_body_at.
  change (Z.to_nat 0) with 0%nat. change (Z.to_nat 1) with 1%nat.
  change (Z.to_nat 2) with 2%nat.
  repeat case_decide; try lia; reflexivity.
Qed.

Lemma sample_calc_body_length (s : system) :
  length (active_voices (sample_calc_body s)) = length (active_voices s).
Proof.
  unfold sample_calc_body. cbn [active_voices set_sample_buffer j].
  destruct (active_voices s !! Z.to_nat (j s)) as [v |]; [| reflexivity].
  destruct (v_enable v); [| reflexivity].
  cbn [active_voices set_active_voices set_sample_buffer j]. apply length_insert.
Qed.

Lemma sample_calc_length (s : system) :
  length (active_voices (sample_calc s)) = length (active_voices s).
Proof.
  rewrite sample_calc_unfold, active_voices_set_j.
  repeat (rewrite sample_calc_body_length, active_voices_set_j). reflexivity.
Qed.

(** ** The sample engine, tick by tick *)

Lemma ticks_succ (n : nat) (s : system) : ticks (S n) s = sample_calc (ticks n s).
Proof. reflexivity. Qed.

Lemma counter_mod_succ (c n P : Z) :
  0 <= P -> 0 <= c -> 0 <= n ->
  (c + (n + 1)) mod (P + 1) =
  if (c + n) mod (P + 1) <? P then (c + n) mod (P + 1) + 1 else 0.
Proof.
  intros HP Hc Hn.
  pose proof (Z.mod_pos_bound (c + n) (P + 1) ltac:(lia)) as Hb.
  replace (c + (n + 1)) with ((c + n) + 1) by lia.
  rewrite <- Zplus_mod_idemp_l.
  destruct (Z.ltb_spec ((c + n) mod (P + 1)) P).
  - apply Z.mod_small. lia.
  - replace ((c + n) mod (P + 1)) with P by lia. apply Z.mod_same. lia.
Qed.

(** An enabled voice in one of the four slots after [n] ticks. *)
Lemma ticks_voice (n : nat) (s : system) (k : nat) (v : voices) :
  (k < 4)%nat -> active_voices s !! k = Some v -> v_enable v = true ->
  1 <= v_period v -> 0 <= v_counter v <= v_period v ->
  active_voices (ticks n s) !! k =
  Some (mk_voice true (v_type v)
                 ((v_counter v + Z.of_nat n) mod (v_period v + 1)) (v_period v)).
Proof.
  intros Hk Hv He HP Hc. induction n as [| n IH].
  - cbn [ticks Nat.iter nat_rect]. rewrite Hv. f_equal.
    destruct v as [en ty c P]. cbn in *. subst en.
    rewrite Z.add_0_r, Z.mod_small by lia. reflexivity.
  - rewrite ticks_succ, sample_calc_voices.
    destruct (decide (k < 4)%nat); [| lia].
    rewrite IH. cbn [fmap option_fmap option_map]. f_equal.
    unfold tick_voice, advance_counter. cbn [v_enable v_type v_counter v_period].
    rewrite Nat2Z.inj_succ. unfold Z.succ.
    rewrite counter_mod_succ by lia.
    destruct (_ <? _); reflexivity.
Qed.

(** C10.  One call of [sample_calc] changes, in every slot of the voice
    array, at most the field [v_counter], and only for an enabled voice in
    one of the four slots the loop visits: [v_enable], [v_type] and
    [v_period] are kept, a disabled voice is kept whole, and the array
    keeps its length. *)
Theorem sample_calc_frame (s : system) (k : nat) (v : voices) :
  active_voices s !! k = Some v ->
  exists v',
    active_voices (sample_calc s) !! k = Some v' /\
    v_enable v' = v_enable v /\ v_type v' = v_type v /\ v_period v' = v_period v /\
    (v_enable v = false -> v' = v) /\
    (v_counter v' <> v_counter v -> v_enable v = true /\ (k < 4)%nat) /\
    length (active_voices (sample_calc s)) = length (active_voices s).
Proof.
  intros Hv. rewrite sample_calc_voices, Hv.
  destruct (decide (k < 4)%nat) as [Hk | Hk].
  - exists (tick_voice v). cbn [fmap option_fmap option_map].
    split; [reflexivity |].
    split; [apply tick_voice_enable |].
    split; [apply tick_voice_type |].
    split; [apply tick_voice_period |].
    split; [apply tick_voice_disabled |].
    split; [| apply sample_calc_length].
    intros Hne. split; [| assumption].
    destruct (v_enable v) eqn:He; [reflexivity |].
    rewrite tick_voice_disabled in Hne by assumption. congruence.
  - exists v. repeat split; try reflexivity; try congruence.
    apply sample_calc_length.
Qed.

Lemma sample_calc_frame_witness :
  exists v',
    active_voices (sample_calc two_square_voices) !! 0%nat = Some v' /\
    v_enable v' = true /\ v_type v' = SQUARE /\ v_period v' = 4 /\
    (true = false -> v' = mk_voice true SQUARE 0 4) /\
    (v_counter v' <> 0 -> true = true /\ (0 < 4)%nat) /\
    length (active_voices (sample_calc two_square_voices)) = 4%nat.
Proof.
  exact (sample_calc_frame two_square_voices 0 (mk_voice true SQUARE 0 4) eq_refl).
Defined.

(** C4.  An enabled voice in one of the four slots, with period [P >= 1]
    and counter in [[0, P]]: after any number [n] of ticks the counter is
    [(counter + n) mod (P + 1)], so it stays in [[0, P]]; one tick adds 1
    below [P] and wraps to 0 at [P]; and from counter 0 the counter is
    [n] (not 0) after [n = 1 .. P] ticks and 0 again after exactly
    [P + 1] ticks. *)
Theorem counter_cycle (s : system) (k : nat) (v : voices) :
  (k < 4)%nat -> active_voices s !! k = Some v -> v_enable v = true ->
  1 <= v_period v -> 0 <= v_counter v <= v_period v ->
  (forall n, exists v',
      active_voices (ticks n s) !! k = Some v' /\
      v_enable v' = true /\ v_period v' = v_period v /\
      0 <= v_counter v' <= v_period v /\
      v_counter v' = (v_counter v + Z.of_nat n) mod (v_period v + 1)) /\
  (exists v1,
      active_voices (sample_calc s) !! k = Some v1 /\
      v_counter v1 = if v_counter v <? v_period v then v_counter v + 1 else 0) /\
  (v_counter v = 0 ->
   (forall n, (1 <= n)%nat -> Z.of_nat n <= v_period v ->
              exists v', active_voices (ticks n s) !! k = Some v' /\
                         v_counter v' = Z.of_nat n /\ v_counter v' <> 0) /\
   (exists v', active_voices (ticks (Z.to_nat (v_period v + 1)) s) !! k = Some v' /\
               v_counter v' = 0)).
Proof.
  intros Hk Hv He HP Hc.
  split; [| split].
  - intros n. eexists. split; [apply ticks_voice; eassumption |].
    cbn [v_enable v_period v_counter].
    pose proof (Z.mod_pos_bound (v_counter v + Z.of_nat n) (v_period v + 1) ltac:(lia)).
    repeat split; lia.
  - exists (tick_voice v). split.
    + rewrite sample_calc_voices, Hv. destruct (decide (k < 4)%nat); [reflexivity | lia].
    + apply tick_voice_counter. assumption.
  - intros H0. split.
    + intros n Hn1 HnP. eexists. split; [apply ticks_voice; eassumption |].
      cbn [v_counter]. rewrite H0, Z.add_0_l, Z.mod_small by lia. lia.
    + eexists. split; [apply ticks_voice; eassumption |].
      cbn [v_counter]. rewrite H0, Z.add_0_l, Z2Nat.id by lia. apply Z.mod_same. lia.
Qed.

Lemma counter_cycle_witness :
  (forall n, exists v',
      active_voices (ticks n triangle_voice_4) !! 0%nat = Some v' /\
      v_enable v' = true /\ v_period v' = 4 /\
      0 <= v_counter v' <= 4 /\
      v_counter v' = (0 + Z.of_nat n) mod (4 + 1)) /\
  (exists v1,
      active_voices (sample_calc triangle_voice_4) !! 0%nat = Some v1 /\
      v_counter v1 = if 0 <? 4 then 0 + 1 else 0) /\
  (0 = 0 ->
   (forall n, (1 <= n)%nat -> Z.of_nat n <= 4 ->
              exists v', active_voices (ticks n triangle_voice_4) !! 0%nat = Some v' /\
                         v_counter v' = Z.of_nat n /\ v_counter v' <> 0) /\
   (exists v', active_voices (ticks (Z.to_nat (4 + 1)) triangle_voice_4) !! 0%nat = Some v' /\
               v_counter v' = 0)).
Proof.
  apply (counter_cycle triangle_voice_4 0 (mk_voice true TRI 0 4)).
  - lia.
  - reflexivity.
  - reflexivity.
  - cbn. lia.
  - cbn. lia.
Defined.

(** ** The DAC frame and the output task *)

Lemma dac_word_sum (input16 : Z) :
  Z.lor (Z.land input16 0xFFF) DAC_CMD_MASK = input16 mod 4096 + 0x3000.
Proof.
  pose proof (Z.add_lor_land (Z.land input16 0xFFF) DAC_CMD_MASK) as H.
  rewrite <- Z.land_assoc in H.
  change (Z.land 0xFFF DAC_CMD_MASK) with 0 in H. rewrite Z.land_0_r in H.
  change 0xFFF with (Z.ones 12) in H. rewrite Z.land_ones in H by lia.
  change (2 ^ 12) with 4096 in H. unfold DAC_CMD_MASK in *. 
  change 0xFFF with (Z.ones 12). rewrite Z.land_ones by lia.
  change (2 ^ 12) with 4096. lia.
Qed.

Lemma u16_to_u8_div (w i : Z) :
  0 <= i -> u16_to_u8 w i = (w / 2 ^ (8 * i)) mod 256.
Proof.
  intros Hi. unfold u16_to_u8. rewrite Z.shiftr_div_pow2 by lia.
  change 255 with (Z.ones 8). rewrite Z.land_ones by lia. reflexivity.
Qed.

(** C9.  For every input sample, [write_to_MCP4821] selects the DAC,
    writes two bytes and deselects it; the two bytes are the high byte and
    then the low byte of the 16-bit word [(input16 & 0xFFF) | 0x3000]. *)
Theorem write_to_MCP4821_frame (input16 : Z) (s : system) :
  let word := Z.lor (Z.land input16 0xFFF) 0x3000 in
  0x3000 <= word <= 0x3FFF /\
  sent_bytes input16 = [word / 256; word mod 256] /\
  0 <= word / 256 <= 255 /\ 0 <= word mod 256 <= 255 /\
  word = (word / 256) * 256 + word mod 256 /\
  spi_tx (write_to_MCP4821 input16 s) =
  spi_tx s ++ [spi_select_slave true;
               spi_write_buffer_wait [word / 256; word mod 256];
               spi_select_slave false].
Proof.
  intros word.
  assert (Hw : word = input16 mod 4096 + 0x3000) by apply dac_word_sum.
  pose proof (Z.mod_pos_bound input16 4096 ltac:(lia)) as Hm.
  assert (Hr : 0x3000 <= word <= 0x3FFF) by lia.
  assert (Hs : sent_bytes input16 = [word / 256; word mod 256]).
  { unfold sent_bytes, sample_to_send_u16. fold word.
    unfold u16. rewrite (Z.mod_small word) by lia.
    rewrite !u16_to_u8_div by lia.
    change (2 ^ (8 * 1)) with 256. change (2 ^ (8 * 0)) with 1.
    rewrite Z.div_1_r. f_equal.
    apply Z.mod_small.
    pose proof (Z.div_pos word 256 ltac:(lia) ltac:(lia)).
    pose proof (Z.div_lt_upper_bound word 256 256 ltac:(lia) ltac:(lia)). lia. }
  pose proof (Z.mod_pos_bound word 256 ltac:(lia)).
  pose proof (Z.div_pos word 256 ltac:(lia) ltac:(lia)).
  pose proof (Z.div_lt_upper_bound word 256 256 ltac:(lia) ltac:(lia)).
  pose proof (Z.div_mod word 256 ltac:(lia)).
  repeat split; try lia; try assumption.
  unfold write_to_MCP4821. cbn [spi_tx set_spi_tx]. rewrite Hs. reflexivity.
Qed.

(** C7.  One run of [vPeriodicSPITask]: on an empty sample queue the
    whole state is unchanged (nothing is transmitted, nothing is
    substituted); otherwise exactly the oldest sample leaves the queue
    and its frame is what is sent to the SPI master, the rest of the state
    being kept. *)
Theorem vPeriodicSPITask_one_dequeue (s : system) :
  match q_items (sampleQueue s) with
  | [] => vPeriodicSPITask s = s
  | sample :: rest =>
      q_items (sampleQueue (vPeriodicSPITask s)) = rest /\
      uxQueueLength (sampleQueue (vPeriodicSPITask s)) = uxQueueLength (sampleQueue s) /\
      spi_tx (vPeriodicSPITask s) =
      spi_tx s ++ [spi_select_slave true;
                   spi_write_buffer_wait (sent_bytes sample);
                   spi_select_slave false] /\
      active_voices (vPeriodicSPITask s) = active_voices s /\
      sample_buffer (vPeriodicSPITask s) = sample_buffer s /\
      full_queue_flag (vPeriodicSPITask s) = full_queue_flag s /\
      messageQueue (vPeriodicSPITask s) = messageQueue s /\
      UARTsem (vPeriodicSPITask s) = UARTsem s /\
      usart_rx (vPeriodicSPITask s) = usart_rx s
  end.
Proof.
  unfold vPeriodicSPITask, xQueueReceive.
  destruct (q_items (sampleQueue s)) as [| sample rest]; [reflexivity |].
  repeat split.
Qed.

Lemma ticks_sample_buffer (n : nat) (s : system) :
  sample_buffer (ticks (S n) s) = slot_sample (active_voices (ticks n s) !! 3%nat).
Proof. rewrite ticks_succ. apply sample_calc_sample_buffer. Qed.

(** C2, the expected outputs as the design document prints them: the
    triangle of period 4 at counter 1 does not evaluate to 127. *)
Lemma triangle_counter_1_is_not_127 : voice_sample (mk_voice true TRI 1 4) <> 127.
Proof. vm_compute. discriminate. Qed.

(** C2, amended.  A triangle voice of period 4 starting at counter 0 in
    one of the four slots: over successive ticks its counter runs 0, 1, 2,
    3, 4, 0, 1; the amplitudes at counters 0 to 4 are 0, 511, 1023, 511,
    0; and when the voice sits in slot 3 these are the values
    [sample_calc] leaves in [sample_buffer]. *)
Theorem triangle_period_4 (s : system) (k : nat) :
  (k < 4)%nat -> active_voices s !! k = Some (mk_voice true TRI 0 4) ->
  map (fun n => v_counter <$> active_voices (ticks n s) !! k) [0; 1; 2; 3; 4; 5; 6]%nat
  = map Some [0; 1; 2; 3; 4; 0; 1] /\
  map (fun counter => voice_sample (mk_voice true TRI counter 4)) [0; 1; 2; 3; 4]
  = [0; 511; 1023; 511; 0] /\
  (k = 3%nat ->
   map (fun n => sample_buffer (ticks (S n) s)) [0; 1; 2; 3; 4; 5; 6]%nat
   = [0; 511; 1023; 511; 0; 0; 511]).
Proof.
  intros Hk Hv.
  assert (Ht : forall n, active_voices (ticks n s) !! k =
                         Some (mk_voice true TRI (Z.of_nat n mod 5) 4)).
  { intros n. rewrite (ticks_voice n s k _ Hk Hv);
      cbn [v_enable v_type v_counter v_period]; try lia; reflexivity. }
  split; [| split].
  - cbn [map]. rewrite !Ht. reflexivity.
  - vm_compute. reflexivity.
  - intros ->. cbn [map]. rewrite !ticks_sample_buffer, !Ht.
    vm_compute. reflexivity.
Qed.

Lemma triangle_period_4_witness :
  map (fun n => v_counter <$> active_voices (ticks n triangle_voice_4_last) !! 3%nat)
      [0; 1; 2; 3; 4; 5; 6]%nat
  = map Some [0; 1; 2; 3; 4; 0; 1] /\
  map (fun counter => voice_sample (mk_voice true TRI counter 4)) [0; 1; 2; 3; 4]
  = [0; 511; 1023; 511; 0] /\
  (3%nat = 3%nat ->
   map (fun n => sample_buffer (ticks (S n) triangle_voice_4_last))
       [0; 1; 2; 3; 4; 5; 6]%nat
   = [0; 511; 1023; 511; 0; 0; 511]).
Proof.
  apply (triangle_period_4 triangle_voice_4_last 3); [lia | reflexivity].
Defined.

(** C1.  With square voices sounding in slots 0 and 1 and slots 2 and 3
    off, [sample_calc] leaves 0 in [sample_buffer], and 0 is what
    [vSampleCalcTask] posts to the sample queue, while the sum of the
    amplitudes of the enabled voices is 2046.  In general the sample is
    the contribution of slot 3 alone: [sample_buffer] is cleared at the
    top of every pass of the loop. *)
Theorem sample_calc_keeps_last_slot_only :
  sample_buffer (sample_calc two_square_voices) = 0 /\
  q_items (sampleQueue (vSampleCalcTask two_square_voices)) = [0] /\
  compute_spec (active_voices two_square_voices) = 2046 /\
  (forall s, sample_buffer (sample_calc s) = slot_sample (active_voices s !! 3%nat)).
Proof.
  split; [vm_compute; reflexivity |].
  split; [vm_compute; reflexivity |].
  split; [vm_compute; reflexivity |].
  apply sample_calc_sample_buffer.
Qed.

(** ** The producer task and the command interpreter *)

(** Whatever neither [set_j] nor the loop body changes, [sample_calc] keeps. *)
Lemma sample_calc_preserves {A : Type} (f : system -> A) :
  (forall x s, f (set_j x s) = f s) ->
  (forall s, f (sample_calc_body s) = f s) ->
  forall s, f (sample_calc s) = f s.
Proof.
  intros Hj Hb s. rewrite sample_calc_unfold.
  repeat (rewrite Hj, Hb). apply Hj.
Qed.

Ltac body_keeps :=
  intros s; unfold sample_calc_body; cbn [active_voices set_sample_buffer j];
  destruct (active_voices s !! Z.to_nat (j s)) as [v |]; [| reflexivity];
  destruct (v_enable v); reflexivity.

Lemma sample_calc_sampleQueue (s : system) : sampleQueue (sample_calc s) = sampleQueue s.
Proof. revert s. apply (sample_calc_preserves sampleQueue); [reflexivity | body_keeps]. Qed.

Lemma sample_calc_full_queue_flag (s : system) :
  full_queue_flag (sample_calc s) = full_queue_flag s.
Proof. revert s. apply (sample_calc_preserves full_queue_flag); [reflexivity | body_keeps]. Qed.

Lemma vMIDIInterpreter_frame (s : system) :
  active_voices (vMIDIInterpreter s) = active_voices s /\
  sample_buffer (vMIDIInterpreter s) = sample_buffer s /\
  full_queue_flag (vMIDIInterpreter s) = full_queue_flag s /\
  sampleQueue (vMIDIInterpreter s) = sampleQueue s.
Proof.
  unfold vMIDIInterpreter, xQueueReceive.
  destruct (q_items (messageQueue s)); repeat split.
Qed.

Lemma vPeriodicSPITask_frame (s : system) :
  active_voices (vPeriodicSPITask s) = active_voices s /\
  sample_buffer (vPeriodicSPITask s) = sample_buffer s /\
  full_queue_flag (vPeriodicSPITask s) = full_queue_flag s /\
  q_items (sampleQueue (vPeriodicSPITask s)) = drop 1 (q_items (sampleQueue s)).
Proof.
  unfold vPeriodicSPITask, xQueueReceive.
  destruct (q_items (sampleQueue s)) as [| x rest] eqn:E; cbn.
  - rewrite E. repeat split.
  - rewrite drop_0. repeat split.
Qed.

Lemma set_sampleQueue_same (s : system) : set_sampleQueue (sampleQueue s) s = s.
Proof. destruct s. reflexivity. Qed.

Lemma xQueueSendToBackFromISR_full (q : xQueue) (item : Z) :
  queue_full q = true -> xQueueSendToBackFromISR q item = (q, false).
Proof.
  intros Hq. unfold xQueueSendToBackFromISR, xQueueSendToBack. rewrite Hq.
  destruct (q_items q); reflexivity.
Qed.

(** A retry on a queue that is still full changes nothing. *)
Lemma vSampleCalcTask_retry_full (s : system) :
  full_queue_flag s = true -> queue_full (sampleQueue s) = true ->
  vSampleCalcTask s = s.
Proof.
  intros Hf Hq. unfold vSampleCalcTask.
  rewrite Hf, xQueueSendToBackFromISR_full by assumption.
  apply set_sampleQueue_same.
Qed.

(** A retry on a queue with room posts the pending sample and ends the stall. *)
Lemma vSampleCalcTask_retry_room (s : system) :
  full_queue_flag s = true -> queue_full (sampleQueue s) = false ->
  full_queue_flag (vSampleCalcTask s) = false /\
  active_voices (vSampleCalcTask s) = active_voices s /\
  sample_buffer (vSampleCalcTask s) = sample_buffer s /\
  q_items (sampleQueue (vSampleCalcTask s)) = q_items (sampleQueue s) ++ [sample_buffer s].
Proof.
  intros Hf Hq. unfold vSampleCalcTask, xQueueSendToBackFromISR, xQueueSendToBack.
  rewrite Hf, Hq. repeat split.
Qed.

Lemma run_cons (t : task) (sched : list task) (s : system) :
  run (t :: sched) s = run sched (task_step t s).
Proof. reflexivity. Qed.

Lemma stalled_run (sched : list task) (s : system) :
  full_queue_flag s = true ->
  (full_queue_flag (run sched s) = true /\
   active_voices (run sched s) = active_voices s /\
   sample_buffer (run sched s) = sample_buffer s /\
   (exists n, q_items (sampleQueue (run sched s)) = drop n (q_items (sampleQueue s))) /\
   (forall pre post,
       sched = pre ++ SampleCalcTask :: post ->
       queue_full (sampleQueue (run pre s)) = true))
  \/
  (exists pre post,
      sched = pre ++ SampleCalcTask :: post /\
      full_queue_flag (run pre s) = true /\
      active_voices (run pre s) = active_voices s /\
      sample_buffer (run pre s) = sample_buffer s /\
      (forall pre' post',
          pre = pre' ++ SampleCalcTask :: post' ->
          queue_full (sampleQueue (run pre' s)) = true) /\
      queue_full (sampleQueue (run pre s)) = false /\
      full_queue_flag (vSampleCalcTask (run pre s)) = false /\
      active_voices (vSampleCalcTask (run pre s)) = active_voices s /\
      q_items (sampleQueue (vSampleCalcTask (run pre s)))
      = q_items (sampleQueue (run pre s)) ++ [sample_buffer s]).
Proof.
  revert s. induction sched as [| t sched IH]; intros s Hf.
  - left. cbn [run fold_left]. repeat split; try assumption.
    + exists 0%nat. reflexivity.
    + intros pre post Hs. destruct pre; discriminate.
  - rewrite run_cons.
    assert (Hstep : (full_queue_flag (task_step t s) = true /\
                     active_voices (task_step t s) = active_voices s /\
                     sample_buffer (task_step t s) = sample_buffer s /\
                     (exists n, q_items (sampleQueue (task_step t s))
                                = drop n (q_items (sampleQueue s))) /\
                     (t = SampleCalcTask -> queue_full (sampleQueue s) = true))
                    \/ (t = SampleCalcTask /\ queue_full (sampleQueue s) = false)).
    { destruct t; cbn [task_step].
      - destruct (queue_full (sampleQueue s)) eqn:Hq.
        + left. rewrite vSampleCalcTask_retry_full by assumption.
          split; [assumption |]. split; [reflexivity |]. split; [reflexivity |].
          split; [exists 0%nat; reflexivity | reflexivity].
        + right. split; reflexivity.
      - left. destruct (vPeriodicSPITask_frame s) as (Ha & Hb & Hc & Hd).
        split; [congruence |]. split; [assumption |]. split; [assumption |].
        split; [exists 1%nat; exact Hd | discriminate].
      - left. destruct (vMIDIInterpreter_frame s) as (Ha & Hb & Hc & Hd).
        split; [congruence |]. split; [assumption |]. split; [assumption |].
        split; [exists 0%nat; rewrite Hd; reflexivity | discriminate]. }
    destruct Hstep as [(Hf1 & Hv1 & Hb1 & (n1 & Hq1) & Hfull1) | [-> Hq]].
    + assert (Hpre : forall pre post,
                 t :: sched = pre ++ SampleCalcTask :: post ->
                 (pre = [] /\ queue_full (sampleQueue s) = true) \/
                 exists pre', pre = t :: pre' /\ sched = pre' ++ SampleCalcTask :: post).
      { intros pre post Hs. destruct pre as [| t' pre'].
        - left. split; [reflexivity |]. apply Hfull1.
          cbn [app] in Hs. congruence.
        - right. exists pre'. cbn [app] in Hs. injection Hs as <- Hs.
          split; [reflexivity | assumption]. }
      destruct (IH (task_step t s) Hf1) as
        [(Hf2 & Hv2 & Hb2 & (n2 & Hq2) & Hall)
        | (pre & post & Hs & Hf2 & Hv2 & Hb2 & Hall & Hroom & Hf3 & Hv3 & Hq3)].
      * left. repeat split; try congruence.
        -- exists (n1 + n2)%nat. rewrite Hq2, Hq1. apply drop_drop.
        -- intros pre post Hs.
           destruct (Hpre pre post Hs) as [[-> Hfull] | (pre' & -> & Hs')].
           ++ exact Hfull.
           ++ rewrite run_cons. apply (Hall pre' post). exact Hs'.
      * right. exists (t :: pre), post. rewrite run_cons.
        split; [rewrite Hs; reflexivity |].
        split; [congruence |]. split; [congruence |]. split; [congruence |].
        split; [| split; [assumption | split; [assumption | split; congruence]]].
        intros pre' post' Hs'.
        destruct pre' as [| t' pre''].
        -- cbn [app] in Hs'. injection Hs' as -> _.
           cbn [run fold_left]. apply Hfull1. reflexivity.
        -- cbn [app] in Hs'. injection Hs' as <- Hs'.
           rewrite run_cons. apply (Hall pre'' post'). exact Hs'.
    + right. exists [], sched. cbn [run fold_left app].
      destruct (vSampleCalcTask_retry_room s Hf Hq) as (Ha & Hb & Hc & Hd).
      repeat split; try assumption.
      intros pre' post' Hs. destruct pre'; discriminate.
Qed.

(** C6.  (1) When the queue is full at the moment [vSampleCalcTask]
    posts a freshly computed sample, the task raises [full_queue_flag]
    and the sample stays in [sample_buffer]; (2) a retry that finds the
    queue still full changes nothing; (3) a retry that finds room appends
    exactly the pending sample to the queue and clears the flag, and does
    nothing else; (4) from a stalled state, along any interleaving with
    the other tasks: either every turn of the producer found the queue
    full, and then the task is still stalled with the same voices and the
    same pending sample (the queue having only lost items at its front);
    or the stall ends at the first turn of the producer that finds room,
    before which voices and pending sample are as they were and at which
    exactly the pending sample is appended to the queue without
    [sample_calc] having run. *)
Theorem stall_and_retry :
  (forall s,
      full_queue_flag s = false -> queue_full (sampleQueue s) = true ->
      full_queue_flag (vSampleCalcTask s) = true /\
      sample_buffer (vSampleCalcTask s) = sample_buffer (sample_calc s) /\
      active_voices (vSampleCalcTask s) = active_voices (sample_calc s) /\
      sampleQueue (vSampleCalcTask s) = sampleQueue s) /\
  (forall s,
      full_queue_flag s = true -> queue_full (sampleQueue s) = true ->
      vSampleCalcTask s = s) /\
  (forall s,
      full_queue_flag s = true -> queue_full (sampleQueue s) = false ->
      vSampleCalcTask s
      = set_full_queue_flag false
          (set_sampleQueue
             (mk_queue (q_items (sampleQueue s) ++ [sample_buffer s])
                       (uxQueueLength (sampleQueue s)))
             s)) /\
  (forall sched s,
      full_queue_flag s = true ->
      (full_queue_flag (run sched s) = true /\
       active_voices (run sched s) = active_voices s /\
       sample_buffer (run sched s) = sample_buffer s /\
       (exists n, q_items (sampleQueue (run sched s)) = drop n (q_items (sampleQueue s))) /\
       (forall pre post,
           sched = pre ++ SampleCalcTask :: post ->
           queue_full (sampleQueue (run pre s)) = true))
      \/
      (exists pre post,
          sched = pre ++ SampleCalcTask :: post /\
          full_queue_flag (run pre s) = true /\
          active_voices (run pre s) = active_voices s /\
          sample_buffer (run pre s) = sample_buffer s /\
          (forall pre' post',
              pre = pre' ++ SampleCalcTask :: post' ->
              queue_full (sampleQueue (run pre' s)) = true) /\
          queue_full (sampleQueue (run pre s)) = false /\
          full_queue_flag (vSampleCalcTask (run pre s)) = false /\
          active_voices (vSampleCalcTask (run pre s)) = active_voices s /\
          q_items (sampleQueue (vSampleCalcTask (run pre s)))
          = q_items (sampleQueue (run pre s)) ++ [sample_buffer s])).
Proof.
  split; [| split; [| split]].
  - intros s Hf Hq. unfold vSampleCalcTask. rewrite Hf.
    pose proof (sample_calc_sampleQueue s) as Hr2.
    generalize dependent (sample_calc s). intros s' Hr2.
    rewrite xQueueSendToBackFromISR_full by (rewrite Hr2; assumption).
    cbn [set_sampleQueue set_full_queue_flag full_queue_flag sample_buffer
         active_voices sampleQueue].
    repeat split. assumption.
  - apply vSampleCalcTask_retry_full.
  - intros s Hf Hq. unfold vSampleCalcTask, xQueueSendToBackFromISR, xQueueSendToBack.
    rewrite Hf, Hq. reflexivity.
  - apply stalled_run.
Qed.

(** The stall on a concrete run: the computed sample 511 waits in
    [sample_buffer] through a failed retry, is posted by the first retry
    after the output task has emptied the queue, and the voice has
    advanced once only. *)
Example stall_on_one_place_queue :
  let stalled := task_step SampleCalcTask producer_facing_full_queue in
  let sent := run [SampleCalcTask; PeriodicSPITask; SampleCalcTask] stalled in
  full_queue_flag stalled = true /\ sample_buffer stalled = 511 /\
  q_items (sampleQueue stalled) = [7] /\
  run [SampleCalcTask] stalled = stalled /\
  full_queue_flag sent = false /\ q_items (sampleQueue sent) = [511] /\
  active_voices sent = active_voices stalled /\
  active_voices sent !! 3%nat = Some (mk_voice true TRI 2 4).
Proof. vm_compute. repeat split. Qed.

(** C3.  [vMIDIInterpreter] never changes a voice.  With the three bytes
    of a NoteOn message queued and every voice off, three turns of the
    task empty the queue and every voice is still off. *)
Theorem vMIDIInterpreter_ignores_commands :
  (forall s, active_voices (vMIDIInterpreter s) = active_voices s) /\
  active_voices (Nat.iter 3 vMIDIInterpreter note_on_pending)
  = [silent_voice; silent_voice; silent_voice; silent_voice] /\
  q_items (messageQueue (Nat.iter 3 vMIDIInterpreter note_on_pending)) = [].
Proof.
  split; [intros s; apply vMIDIInterpreter_frame |].
  split; reflexivity.
Qed.

(** ** The UART drain task *)

Lemma xQueueSendToBack_room (q : xQueue) (item t : Z) (f : bool) :
  queue_full q = false ->
  xQueueSendToBack q item t f = (mk_queue (q_items q ++ [item]) (uxQueueLength q), true).
Proof. intros Hq. unfold xQueueSendToBack. rewrite Hq. reflexivity. Qed.

Lemma xQueueSendToBack_timeout (q : xQueue) (item t : Z) (f : bool) :
  queue_full q = true -> f = false \/ t <= 0 ->
  xQueueSendToBack q item t f = (q, false).
Proof.
  intros Hq Hw. unfold xQueueSendToBack. rewrite Hq.
  destruct (q_items q); [reflexivity |].
  destruct Hw as [-> | Ht]; [rewrite andb_false_r; reflexivity |].
  destruct (Z.ltb_spec 0 t); [lia | reflexivity].
Qed.

(** Whatever happens, a push leaves the old contents minus at most the
    oldest item, followed by the new item or by nothing. *)
Lemma xQueueSendToBack_cases (q : xQueue) (item t : Z) (f : bool) :
  uxQueueLength (fst (xQueueSendToBack q item t f)) = uxQueueLength q /\
  (q_items (fst (xQueueSendToBack q item t f)) = q_items q ++ [item] \/
   q_items (fst (xQueueSendToBack q item t f)) = drop 1 (q_items q ++ [item]) \/
   (q_items (fst (xQueueSendToBack q item t f)) = q_items q /\ queue_full q = true)).
Proof.
  unfold xQueueSendToBack.
  destruct (queue_full q) eqn:Hq; [| split; [reflexivity | left; reflexivity]].
  destruct (q_items q) as [| y rest] eqn:Hi.
  - split; [reflexivity |]. right. right. cbn. rewrite Hi. split; reflexivity.
  - destruct ((0 <? t) && f).
    + split; [reflexivity |]. right. left. reflexivity.
    + split; [reflexivity |]. right. right. cbn. rewrite Hi. split; reflexivity.
Qed.

Lemma portTickType_range (cfg : FreeRTOSConfig) (z : Z) : 0 <= portTickType cfg z.
Proof.
  unfold portTickType. apply Z.mod_pos_bound.
  destruct (configUSE_16_BIT_TICKS cfg); reflexivity.
Qed.

Lemma portTickType_small (cfg : FreeRTOSConfig) (z : Z) :
  0 <= z < 65536 -> portTickType cfg z = z.
Proof.
  intros Hz. unfold portTickType. apply Z.mod_small.
  destruct (configUSE_16_BIT_TICKS cfg);
    [change (2 ^ 16) with 65536 | change (2 ^ 32) with 4294967296]; lia.
Qed.

(** The wait of a push is defined unless one of the two divisions is by
    zero: the tick rate is 0, or it exceeds [(portTickType) 1000000]. *)
Lemma uart_push_wait_undefined (cfg : FreeRTOSConfig) :
  uart_push_wait cfg = None <->
  portTickType cfg (configTICK_RATE_HZ cfg) = 0 \/
  portTickType cfg 1000000 < portTickType cfg (configTICK_RATE_HZ cfg).
Proof.
  unfold uart_push_wait, portTICK_RATE_uS.
  pose proof (portTickType_range cfg (configTICK_RATE_HZ cfg)) as Hhz.
  pose proof (portTickType_range cfg 1000000) as Hm.
  set (hz := portTickType cfg (configTICK_RATE_HZ cfg)) in *.
  set (m := portTickType cfg 1000000) in *.
  destruct (Z.eqb_spec hz 0) as [H0 | H0].
  - split; [intros _; left; assumption | reflexivity].
  - destruct (Z.eqb_spec (m / hz) 0) as [Hr | Hr].
    + split; [intros _; right | reflexivity].
      apply Z.div_small_iff in Hr; lia.
    + split; [discriminate |]. intros [H | H]; [contradiction |].
      exfalso. apply Hr. apply Z.div_small. lia.
Qed.

(** Where it is defined, the wait is at most 50 ticks. *)
Lemma uart_push_wait_bound (cfg : FreeRTOSConfig) (w : Z) :
  uart_push_wait cfg = Some w -> 0 <= w <= 50.
Proof.
  unfold uart_push_wait, portTICK_RATE_uS.
  pose proof (portTickType_range cfg (configTICK_RATE_HZ cfg)) as Hhz.
  pose proof (portTickType_range cfg 1000000) as Hm.
  set (hz := portTickType cfg (configTICK_RATE_HZ cfg)) in *.
  set (m := portTickType cfg 1000000) in *.
  destruct (Z.eqb_spec hz 0) as [H0 | H0]; [discriminate |].
  destruct (Z.eqb_spec (m / hz) 0) as [Hr | Hr]; [discriminate |].
  intros Hw. injection Hw as <-.
  assert (Hrate : 1 <= m / hz).
  { pose proof (Z.div_pos m hz ltac:(lia) ltac:(lia)). lia. }
  assert (Hq : 0 <= 50 / (m / hz) <= 50).
  { split; [apply Z.div_pos; lia |].
    apply Z.div_le_upper_bound; [lia |]. nia. }
  rewrite portTickType_small by lia. exact Hq.
Qed.

Lemma uart_drain_cons (cfg : FreeRTOSConfig) (w temp : Z) (rx : list Z)
      (freed : list bool) (q : xQueue) :
  uart_push_wait cfg = Some w ->
  uart_drain cfg (temp :: rx) freed q
  = uart_drain cfg rx (tl freed)
      (fst (xQueueSendToBack q (temp mod 256) w (hd false freed))).
Proof. intros Hw. cbn [uart_drain]. rewrite Hw. reflexivity. Qed.

Lemma uart_drain_spec (cfg : FreeRTOSConfig) (w : Z) (rx : list Z) (freed : list bool)
      (q : xQueue) :
  uart_push_wait cfg = Some w ->
  exists q',
    uart_drain cfg rx freed q = Some q' /\
    uxQueueLength q' = uxQueueLength q /\
    exists accepted n,
      sublist accepted (map (fun temp => temp mod 256) rx) /\
      q_items q' = drop n (q_items q ++ accepted).
Proof.
  intros Hw. revert freed q. induction rx as [| temp rx IH]; intros freed q.
  - exists q. split; [reflexivity |]. split; [reflexivity |].
    exists [], 0%nat. split; [constructor |].
    cbn. rewrite app_nil_r. reflexivity.
  - rewrite (uart_drain_cons cfg w) by assumption. cbn [map].
    destruct (xQueueSendToBack_cases q (temp mod 256) w (hd false freed))
      as (Hlen & [Hq | [Hq | [Hq _]]]);
      destruct (IH (tl freed) (fst (xQueueSendToBack q (temp mod 256) w (hd false freed))))
      as (q' & Hd & Hl & accepted & n & Hsub & Hit);
      exists q'; (split; [exact Hd |]); (split; [congruence |]).
    + exists (temp mod 256 :: accepted), n. split; [constructor; assumption |].
      rewrite Hit, Hq, <- app_assoc. reflexivity.
    + exists (temp mod 256 :: accepted), (1 + n)%nat. split; [constructor; assumption |].
      rewrite Hit, Hq. rewrite <- drop_app_le by (rewrite length_app; cbn; lia).
      rewrite drop_drop, <- app_assoc. reflexivity.
    + exists accepted, n. split; [constructor; assumption |].
      rewrite Hit, Hq. reflexivity.
Qed.

(** With room for every byte, every byte is queued. *)
Lemma uart_drain_room (cfg : FreeRTOSConfig) (w : Z) (rx : list Z) (freed : list bool)
      (q : xQueue) :
  uart_push_wait cfg = Some w ->
  (length (q_items q) + length rx <= uxQueueLength q)%nat ->
  uart_drain cfg rx freed q
  = Some (mk_queue (q_items q ++ map (fun temp => temp mod 256) rx) (uxQueueLength q)).
Proof.
  intros Hw. revert freed q. induction rx as [| temp rx IH]; intros freed q Hroom.
  - cbn. rewrite app_nil_r. destruct q; reflexivity.
  - rewrite (uart_drain_cons cfg w) by assumption. cbn [map]. cbn [length] in Hroom.
    rewrite xQueueSendToBack_room.
    + cbn [fst]. rewrite IH.
      * cbn [q_items uxQueueLength]. rewrite <- app_assoc. reflexivity.
      * cbn [q_items uxQueueLength]. rewrite length_app. cbn [length]. lia.
    + unfold queue_full. apply Nat.leb_gt. lia.
Qed.

(** With no place freed while a push waits, the queue takes the bytes
    up to its capacity and the rest are lost. *)
Lemma uart_drain_no_help (cfg : FreeRTOSConfig) (w : Z) (rx : list Z) (freed : list bool)
      (q : xQueue) :
  uart_push_wait cfg = Some w ->
  w = 0 \/ Forall (fun b => b = false) freed ->
  uart_drain cfg rx freed q
  = Some (mk_queue (q_items q
                    ++ take (uxQueueLength q - length (q_items q))
                            (map (fun temp => temp mod 256) rx))
                   (uxQueueLength q)).
Proof.
  intros Hw. revert freed q. induction rx as [| temp rx IH]; intros freed q Hno.
  - cbn [uart_drain map]. rewrite take_nil, app_nil_r. destruct q; reflexivity.
  - rewrite (uart_drain_cons cfg w) by assumption. cbn [map].
    assert (Htl : w = 0 \/ Forall (fun b => b = false) (tl freed)).
    { destruct Hno as [H | H]; [left; assumption | right].
      destruct freed; [constructor |]. inversion H; assumption. }
    assert (Hhd : hd false freed = false \/ w <= 0).
    { destruct Hno as [H | H]; [right; lia | left].
      destruct freed; [reflexivity |]. inversion H; assumption. }
    destruct (queue_full q) eqn:Hfull.
    + rewrite xQueueSendToBack_timeout by assumption. cbn [fst].
      rewrite IH by assumption.
      unfold queue_full in Hfull. apply Nat.leb_le in Hfull.
      replace (uxQueueLength q - length (q_items q))%nat with 0%nat by lia.
      reflexivity.
    + rewrite xQueueSendToBack_room by assumption. cbn [fst].
      rewrite IH by assumption. cbn [q_items uxQueueLength].
      unfold queue_full in Hfull. apply Nat.leb_gt in Hfull.
      rewrite length_app. cbn [length].
      replace (uxQueueLength q - length (q_items q))%nat
        with (S (uxQueueLength q - (length (q_items q) + 1)))%nat by lia.
      cbn [take]. rewrite <- app_assoc. reflexivity.
Qed.

Lemma uart_drain_undefined (cfg : FreeRTOSConfig) (rx : list Z) (freed : list bool)
      (q : xQueue) :
  uart_push_wait cfg = None -> rx <> [] -> uart_drain cfg rx freed q = None.
Proof.
  intros Hw Hrx. destruct rx as [| temp rx]; [contradiction |].
  cbn [uart_drain]. rewrite Hw. reflexivity.
Qed.

(** One byte of a wake: the task goes on as if woken with the remaining
    words, the byte having been offered to the queue. *)
Lemma vUARTHandlerTask_step (cfg : FreeRTOSConfig) (w : Z) (freed : list bool)
      (s : system) (temp : Z) (rest : list Z) :
  uart_push_wait cfg = Some w ->
  UARTsem s = true -> usart_rx s = temp :: rest ->
  vUARTHandlerTask cfg freed s
  = vUARTHandlerTask cfg (tl freed)
      (set_usart_rx rest
         (set_messageQueue
            (fst (xQueueSendToBack (messageQueue s) (temp mod 256) w (hd false freed)))
            s)).
Proof.
  intros Hw Hs Hrx. unfold vUARTHandlerTask.
  destruct s as [av fq sb jj sq mq us rx tx].
  cbn [UARTsem usart_rx messageQueue set_UARTsem set_usart_rx set_messageQueue] in *.
  subst us rx. rewrite (uart_drain_cons cfg w) by assumption.
  destruct (uart_drain cfg rest (tl freed)
              (fst (xQueueSendToBack mq (temp mod 256) w (hd false freed))));
    reflexivity.
Qed.

Lemma set_messageQueue_id (s : system) : set_messageQueue (messageQueue s) s = s.
Proof. destruct s; reflexivity. Qed.

(** C8.  One turn of [vUARTHandlerTask], for every setting of the tick
    rate and the tick width.  (1) Without the semaphore the task stays
    blocked.  (2) Woken with no word pending it takes the semaphore and
    blocks again.  (3) The wait of a push, [50/portTICK_RATE_uS], is
    defined unless a division is by zero: the tick rate is 0 or exceeds
    [(portTickType) 1000000]; (4) with a word pending and the wait
    undefined, so is the turn.  (5) Where the wait is defined it is at
    most 50 ticks, and then: each word is cut to a byte and offered to
    the message queue with that wait, in arrival order, the task going on
    with the remaining words whatever the push returned; a byte whose
    push finds the queue full and times out leaves no trace, the task
    just goes on with the next word; the turn ends with no word left, the
    semaphore taken and the task blocked again, nothing but the message
    queue changed; the queue ends as its old contents followed by a
    subsequence, in arrival order, of the bytes read, less what the
    receiving task took from the front; with room for all bytes every
    byte is queued; and with no place freed during the waits the queue
    takes the bytes up to its capacity and the later ones are lost. *)
Theorem vUARTHandlerTask_drains (cfg : FreeRTOSConfig) (freed : list bool) (s : system) :
  (UARTsem s = false -> vUARTHandlerTask cfg freed s = Blocked) /\
  (UARTsem s = true -> usart_rx s = [] ->
   vUARTHandlerTask cfg freed s = Done (set_UARTsem false s)) /\
  (uart_push_wait cfg = None <->
   portTickType cfg (configTICK_RATE_HZ cfg) = 0 \/
   portTickType cfg 1000000 < portTickType cfg (configTICK_RATE_HZ cfg)) /\
  (UARTsem s = true -> usart_rx s <> [] -> uart_push_wait cfg = None ->
   vUARTHandlerTask cfg freed s = Undefined) /\
  (forall w,
      uart_push_wait cfg = Some w ->
      0 <= w <= 50 /\
      (forall temp rest,
          UARTsem s = true -> usart_rx s = temp :: rest ->
          vUARTHandlerTask cfg freed s
          = vUARTHandlerTask cfg (tl freed)
              (set_usart_rx rest
                 (set_messageQueue
                    (fst (xQueueSendToBack (messageQueue s) (temp mod 256) w
                                           (hd false freed)))
                    s))) /\
      (forall temp rest,
          UARTsem s = true -> usart_rx s = temp :: rest ->
          queue_full (messageQueue s) = true ->
          hd false freed = false \/ w = 0 ->
          vUARTHandlerTask cfg freed s
          = vUARTHandlerTask cfg (tl freed) (set_usart_rx rest s)) /\
      (UARTsem s = true ->
       exists s',
         vUARTHandlerTask cfg freed s = Done s' /\
         usart_rx s' = [] /\ UARTsem s' = false /\
         (forall cfg' freed', vUARTHandlerTask cfg' freed' s' = Blocked) /\
         active_voices s' = active_voices s /\ sample_buffer s' = sample_buffer s /\
         full_queue_flag s' = full_queue_flag s /\ sampleQueue s' = sampleQueue s /\
         spi_tx s' = spi_tx s /\
         uxQueueLength (messageQueue s') = uxQueueLength (messageQueue s) /\
         (exists accepted n,
             sublist accepted (map (fun temp => temp mod 256) (usart_rx s)) /\
             q_items (messageQueue s') = drop n (q_items (messageQueue s) ++ accepted)) /\
         ((length (q_items (messageQueue s)) + length (usart_rx s)
           <= uxQueueLength (messageQueue s))%nat ->
          q_items (messageQueue s')
          = q_items (messageQueue s) ++ map (fun temp => temp mod 256) (usart_rx s)) /\
         (w = 0 \/ Forall (fun b => b = false) freed ->
          q_items (messageQueue s')
          = q_items (messageQueue s)
            ++ take (uxQueueLength (messageQueue s) - length (q_items (messageQueue s)))
                    (map (fun temp => temp mod 256) (usart_rx s))))).
Proof.
  split; [| split; [| split; [| split]]].
  - intros Hs. unfold vUARTHandlerTask. rewrite Hs. reflexivity.
  - intros Hs Hrx. unfold vUARTHandlerTask. rewrite Hs.
    destruct s as [av fq sb jj sq mq us rx tx].
    cbn [usart_rx set_UARTsem] in *. subst rx. reflexivity.
  - apply uart_push_wait_undefined.
  - intros Hs Hrx Hw. unfold vUARTHandlerTask. rewrite Hs.
    cbn [usart_rx messageQueue set_UARTsem].
    rewrite uart_drain_undefined by assumption. reflexivity.
  - intros w Hw. split; [apply (uart_push_wait_bound cfg); assumption |].
    split; [| split].
    + intros temp rest Hs Hrx. apply vUARTHandlerTask_step; assumption.
    + intros temp rest Hs Hrx Hfull Hout.
      rewrite (vUARTHandlerTask_step cfg w freed s temp rest) by assumption.
      rewrite xQueueSendToBack_timeout;
        [| assumption | destruct Hout; [left; assumption | right; lia]].
      cbn [fst]. rewrite set_messageQueue_id. reflexivity.
    + intros Hs. unfold vUARTHandlerTask. rewrite Hs.
      cbn [usart_rx messageQueue set_UARTsem].
      destruct (uart_drain_spec cfg w (usart_rx s) freed (messageQueue s) Hw)
        as (q' & Hd & Hlen & Hacc).
      rewrite Hd. eexists. split; [reflexivity |].
      cbn [usart_rx UARTsem set_messageQueue set_usart_rx set_UARTsem active_voices
           sample_buffer full_queue_flag sampleQueue spi_tx messageQueue].
      repeat split; try assumption.
      * intros Hroom.
        rewrite (uart_drain_room cfg w) in Hd by assumption.
        injection Hd as <-. reflexivity.
      * intros Hno.
        rewrite (uart_drain_no_help cfg w) in Hd by assumption.
        injection Hd as <-. reflexivity.
Qed.

(** The wait at four settings: a 1 kHz tick gives no wait at all with
    32-bit ticks and 3 ticks with 16-bit ticks (where [1000000] is cut to
    16960); a tick rate of 0, or one above 1 MHz, divides by zero. *)
Example uart_push_wait_settings :
  uart_push_wait (mk_config 1000 false) = Some 0 /\
  uart_push_wait (mk_config 1000 true) = Some 3 /\
  uart_push_wait (mk_config 0 false) = None /\
  uart_push_wait (mk_config 2000000 false) = None.
Proof. repeat split. Qed.

(** The drain on a concrete wake: three words are read, the first two
    bytes fill the queue, the third is dropped, and the task is blocked
    again until the next interrupt. *)
Example drain_three_words :
  exists s',
    vUARTHandlerTask (mk_config 1000 false) [] three_words_received = Done s' /\
    q_items (messageQueue s') = [0x90; 2] /\ usart_rx s' = [] /\
    vUARTHandlerTask (mk_config 1000 false) [] s' = Blocked /\
    vUARTHandlerTask (mk_config 1000 false) [] (usart_read_callback s') <> Blocked.
Proof. eexists. vm_compute. repeat split. discriminate. Qed.

(** A place freed during the wait lets a byte in: with 16-bit ticks the
    push waits 3 ticks, the receiving task takes the oldest byte
    meanwhile, and the new byte is queued behind the rest. *)
Example drain_with_a_place_freed :
  exists s',
    vUARTHandlerTask (mk_config 1000 true) [false; false; true] three_words_received
    = Done s' /\
    q_items (messageQueue s') = [2; 3].
Proof. eexists. vm_compute. repeat split. Qed.

(** ** More on the conversion [fraction_of_FFF] *)

(** A float divided by itself is 1. *)
Lemma float32_div_self (m : positive) (e : Z) :
  Float32.div (S754_finite false m e) (S754_finite false m e)
  = S754_finite false 8388608 (-23).
Proof.
  unfold Float32.div. cbn [SFdiv xorb].
  rewrite (SFdiv_core_binary_eq Float32.prec Float32.emax) by lia.
  replace (Zdigits2 (Z.pos m) + e - (Zdigits2 (Z.pos m) + e)) with 0 by lia.
  rewrite Z.sub_diag.
  change (Z.min (fexp Float32.prec Float32.emax 0) 0) with (-24).
  change (0 - -24) with 24.
  rewrite (Z.mul_comm (Z.pos m)), Z.div_mul, Z.mod_mul by lia.
  rewrite new_location_0. vm_compute. reflexivity.
Qed.

Lemma long_is_wide (n : Z) : 1 <= n <= LONG_MAX -> 0 < n < 2 ^ 127.
Proof.
  intros Hn. assert (2 ^ 31 <= 2 ^ 127) by (apply Z.pow_le_mono_r; lia).
  change (2 ^ 31) with 2147483648 in *. unfold LONG_MAX in Hn. lia.
Qed.

Lemma fraction_of_FFF_zero (den : Z) : 0 < den < 2 ^ 127 -> fraction_of_FFF 0 den = 0.
Proof.
  intros Hden. unfold fraction_of_FFF, Float32.of_long.
  destruct (binary_normalize_pos Float32.prec Float32.emax float32_prec float32_emax den
              ltac:(lia) (long_digits den Hden)) as (m & e & -> & _).
  reflexivity.
Qed.

Lemma fraction_of_FFF_same (den : Z) : 0 < den < 2 ^ 127 -> fraction_of_FFF den den = 0xFFF.
Proof.
  intros Hden. unfold fraction_of_FFF, Float32.of_long.
  destruct (binary_normalize_pos Float32.prec Float32.emax float32_prec float32_emax den
              ltac:(lia) (long_digits den Hden)) as (m & e & -> & _).
  rewrite float32_div_self. vm_compute. reflexivity.
Qed.

(** X1.  [fraction_of_FFF] at the two ends of its range: for a
    denominator that fits a [long], numerator 0 gives 0 and a numerator
    equal to the denominator gives exactly 0xFFF; the float division and
    multiplication lose nothing there. *)
Theorem fraction_of_FFF_endpoints (den : Z) :
  1 <= den <= LONG_MAX ->
  fraction_of_FFF 0 den = 0 /\ fraction_of_FFF den den = 0xFFF.
Proof.
  intros Hden. apply long_is_wide in Hden.
  split; [apply fraction_of_FFF_zero | apply fraction_of_FFF_same]; assumption.
Qed.

Lemma fraction_of_FFF_endpoints_witness :
  fraction_of_FFF 0 45 = 0 /\ fraction_of_FFF 45 45 = 0xFFF.
Proof. apply (fraction_of_FFF_endpoints 45). unfold LONG_MAX. lia. Defined.

(** ** Binary floating point: rounding between representable bounds *)

Lemma dyadic_le_pos (b eb m e : Z) : 0 < b -> dyadic_le b eb m e -> 0 < m.
Proof.
  unfold dyadic_le. intros Hb H.
  assert (0 < 2 ^ (eb - Z.min eb e)) by (apply pow2_pos; lia).
  assert (0 < 2 ^ (e - Z.min eb e)) by (apply pow2_pos; lia).
  nia.
Qed.

Lemma dyadic_le_mono_r (b eb m m' e : Z) :
  m <= m' -> dyadic_le b eb m e -> dyadic_le b eb m' e.
Proof.
  unfold dyadic_le. intros Hm H.
  assert (0 < 2 ^ (e - Z.min eb e)) by (apply pow2_pos; lia).
  nia.
Qed.

Section RoundingFromBelow.

Variables prec emax : Z.
Hypothesis Hprec : 0 < prec.
Hypothesis Hemax : prec < emax.

(** Cutting a value down to working precision does not take it below a
    bound that is itself representable. *)
Lemma shr_fexp_ge (m e b eb : Z) :
  0 < b < 2 ^ prec -> emin prec emax <= eb ->
  dyadic_le b eb m e ->
  dyadic_le b eb (m / 2 ^ (Z.max e (fexp prec emax (Zdigits2 m + e)) - e))
                 (Z.max e (fexp prec emax (Zdigits2 m + e))).
Proof.
  intros Hb Hemin Hle.
  pose proof (dyadic_le_pos _ _ _ _ (proj1 Hb) Hle) as Hm.
  set (e' := Z.max e (fexp prec emax (Zdigits2 m + e))).
  destruct (Z.eq_dec e' e) as [-> | Hne].
  - rewrite Z.sub_diag, Z.pow_0_r, Z.div_1_r. exact Hle.
  - assert (He' : e < e') by (unfold e' in *; lia).
    assert (Hp : 0 < 2 ^ (e' - e)) by (apply pow2_pos; lia).
    destruct (Z_le_gt_dec e' eb) as [Hin | Hout].
    + apply (dyadic_le_shift _ _ _ _ e) in Hle; [| lia | lia].
      rewrite Z.sub_diag, Z.pow_0_r, Z.mul_1_r in Hle.
      apply (dyadic_le_shift _ _ _ _ e'); [lia | lia |].
      rewrite Z.sub_diag, Z.pow_0_r, Z.mul_1_r.
      apply Z.div_le_lower_bound; [lia |].
      replace (eb - e) with ((eb - e') + (e' - e)) in Hle by lia.
      rewrite pow2_split in Hle by lia. lia.
    + assert (Hf : e' = Zdigits2 m + e - prec).
      { unfold e', fexp in *. lia. }
      pose proof (Zdigits2_bounds m Hm) as [Hlo _].
      assert (Hk : 2 ^ (prec - 1) <= m / 2 ^ (e' - e)).
      { apply Z.div_le_lower_bound; [lia |].
        rewrite <- pow2_split by lia.
        replace (e' - e + (prec - 1)) with (Zdigits2 m - 1) by lia. exact Hlo. }
      apply (dyadic_le_shift _ _ _ _ eb); [lia | lia |].
      rewrite Z.sub_diag, Z.pow_0_r, Z.mul_1_r.
      assert (2 <= 2 ^ (e' - eb)).
      { change 2 with (2 ^ 1) at 1. apply Z.pow_le_mono_r; lia. }
      assert (2 ^ prec = 2 * 2 ^ (prec - 1)).
      { replace prec with (1 + (prec - 1)) at 1 by lia.
        rewrite pow2_split by lia. reflexivity. }
      nia.
Qed.

(** Rounding a value that is at least a representable bound gives at
    least that bound. *)
Lemma round_aux_ge (mx ex : Z) (lx : location) (b eb : Z) :
  0 < b < 2 ^ prec -> emin prec emax <= eb ->
  dyadic_le b eb mx ex ->
  binary_round_aux prec emax false mx ex lx <> S754_zero false /\
  forall m e, binary_round_aux prec emax false mx ex lx = S754_finite false m e ->
              dyadic_le b eb (Z.pos m) e.
Proof.
  intros Hb Hemin Hle.
  pose proof (dyadic_le_pos _ _ _ _ (proj1 Hb) Hle) as Hmx.
  unfold binary_round_aux.
  pose proof (shr_fexp_exponent prec emax mx ex lx ltac:(lia)) as He1.
  pose proof (shr_fexp_mantissa prec emax mx ex lx ltac:(lia)) as Hm1.
  pose proof (shr_fexp_ge mx ex b eb Hb Hemin Hle) as H1.
  rewrite <- Hm1, <- He1 in H1.
  destruct (shr_fexp prec emax mx ex lx) as [mrs1 e1]. cbn [fst snd] in *.
  clear He1 Hm1.
  set (mr := round_nearest_even (shr_m mrs1) (loc_of_shr_record mrs1)).
  assert (Hmr : dyadic_le b eb mr e1).
  { apply (dyadic_le_mono_r _ _ (shr_m mrs1)); [| assumption].
    apply round_nearest_even_range. }
  clearbody mr.
  pose proof (dyadic_le_pos _ _ _ _ (proj1 Hb) Hmr) as Hmrpos.
  pose proof (shr_fexp_exponent prec emax mr e1 loc_Exact ltac:(lia)) as He2.
  pose proof (shr_fexp_mantissa prec emax mr e1 loc_Exact ltac:(lia)) as Hm2.
  pose proof (shr_fexp_ge mr e1 b eb Hb Hemin Hmr) as H2.
  rewrite <- Hm2, <- He2 in H2.
  destruct (shr_fexp prec emax mr e1 loc_Exact) as [mrs2 e2]. cbn [fst snd] in *.
  pose proof (dyadic_le_pos _ _ _ _ (proj1 Hb) H2) as Hpos.
  destruct (shr_m mrs2) as [| m | m]; [lia | | lia].
  destruct (e2 <=? emax - prec); split; try discriminate.
  intros m' e' Heq. injection Heq as <- <-. assumption.
Qed.

(** A quotient that is at most a representable bound rounds to at most
    that bound. *)
Lemma SFdiv_upper (m1 : positive) (e1 : Z) (m2 : positive) (e2 : Z) (b eb : Z) :
  0 < b < 2 ^ prec -> emin prec emax <= eb -> eb <= emax - prec ->
  Zdigits2 (Z.pos m1) + e1 - (Zdigits2 (Z.pos m2) + e2) - prec <= eb ->
  dyadic_le (Z.pos m1) e1 (b * Z.pos m2) (eb + e2) ->
  SFdiv prec emax (S754_finite false m1 e1) (S754_finite false m2 e2) = S754_zero false \/
  exists m e, SFdiv prec emax (S754_finite false m1 e1) (S754_finite false m2 e2)
              = S754_finite false m e /\ e <= eb /\ Z.pos m <= b * 2 ^ (eb - e).
Proof.
  intros Hb Hemin Hebmax Hdig Hle. cbn [SFdiv xorb].
  rewrite SFdiv_core_binary_eq by lia.
  set (e' := Z.min (fexp prec emax (Zdigits2 (Z.pos m1) + e1 - (Zdigits2 (Z.pos m2) + e2)))
                   (e1 - e2)).
  set (m' := Z.pos m1 * 2 ^ (e1 - e2 - e')).
  cbv zeta.
  assert (He' : e' <= eb) by (unfold e', fexp; lia).
  assert (He'2 : e' <= e1 - e2) by (unfold e'; lia).
  assert (Hm' : m' <= b * Z.pos m2 * 2 ^ (eb - e')).
  { unfold m'.
    apply (dyadic_le_shift _ _ _ _ (e' + e2)) in Hle; [| lia | lia].
    replace (e1 - (e' + e2)) with (e1 - e2 - e') in Hle by lia.
    replace (eb + e2 - (e' + e2)) with (eb - e') in Hle by lia. exact Hle. }
  assert (Hp : 0 < 2 ^ (eb - e')) by (apply pow2_pos; lia).
  assert (Hm'0 : 0 <= m').
  { unfold m'. assert (0 < 2 ^ (e1 - e2 - e')) by (apply pow2_pos; lia). lia. }
  apply (round_aux_le prec emax Hprec); try assumption.
  - apply Z.div_pos; lia.
  - assert (Hq : m' / Z.pos m2 <= b * 2 ^ (eb - e')).
    { apply Z.div_le_upper_bound; lia. }
    destruct (Z.eq_dec (m' / Z.pos m2) (b * 2 ^ (eb - e'))) as [Heq | Hne];
      [right | left; lia].
    split; [assumption |].
    pose proof (Z.div_mod m' (Z.pos m2) ltac:(lia)) as Hdm.
    pose proof (Z.mod_pos_bound m' (Z.pos m2) ltac:(lia)) as Hmod.
    rewrite Heq in Hdm.
    replace (m' mod Z.pos m2) with 0 by lia. apply new_location_0.
Qed.

(** A quotient that is at least a representable bound rounds to at least
    that bound. *)
Lemma SFdiv_lower (m1 : positive) (e1 : Z) (m2 : positive) (e2 : Z) (b eb : Z) :
  0 < b < 2 ^ prec -> emin prec emax <= eb ->
  Zdigits2 (Z.pos m1) + e1 - (Zdigits2 (Z.pos m2) + e2) - prec <= eb ->
  dyadic_le (b * Z.pos m2) (eb + e2) (Z.pos m1) e1 ->
  SFdiv prec emax (S754_finite false m1 e1) (S754_finite false m2 e2) <> S754_zero false /\
  forall m e, SFdiv prec emax (S754_finite false m1 e1) (S754_finite false m2 e2)
              = S754_finite false m e -> dyadic_le b eb (Z.pos m) e.
Proof.
  intros Hb Hemin Hdig Hle. cbn [SFdiv xorb].
  rewrite SFdiv_core_binary_eq by lia.
  set (e' := Z.min (fexp prec emax (Zdigits2 (Z.pos m1) + e1 - (Zdigits2 (Z.pos m2) + e2)))
                   (e1 - e2)).
  set (m' := Z.pos m1 * 2 ^ (e1 - e2 - e')).
  cbv zeta.
  assert (He' : e' <= eb) by (unfold e', fexp; lia).
  assert (He'2 : e' <= e1 - e2) by (unfold e'; lia).
  assert (Hm' : b * Z.pos m2 * 2 ^ (eb - e') <= m').
  { unfold m'.
    apply (dyadic_le_shift _ _ _ _ (e' + e2)) in Hle; [| lia | lia].
    replace (e1 - (e' + e2)) with (e1 - e2 - e') in Hle by lia.
    replace (eb + e2 - (e' + e2)) with (eb - e') in Hle by lia. exact Hle. }
  assert (Hp : 0 < 2 ^ (eb - e')) by (apply pow2_pos; lia).
  apply round_aux_ge; try assumption.
  apply (dyadic_le_shift _ _ _ _ e'); [lia | lia |].
  rewrite Z.sub_diag, Z.pow_0_r, Z.mul_1_r.
  apply Z.div_le_lower_bound; lia.
Qed.

End RoundingFromBelow.

(** ** How close [fraction_of_FFF] comes to the exact fraction *)

(** A [long] of at most 24 bits converts to [float] without rounding. *)
Lemma of_long_exact (n : Z) :
  0 < n < 2 ^ 24 ->
  exists m e, Float32.of_long n = S754_finite false m e /\ -23 <= e /\
              Z.pos m * 2 ^ (e + 23) = n * 2 ^ 23.
Proof.
  intros Hn. unfold Float32.of_long.
  assert (Hd : Zdigits2 n <= 24) by (apply Zdigits2_le; lia).
  destruct (binary_normalize_pos Float32.prec Float32.emax float32_prec float32_emax n
              ltac:(lia) ltac:(unfold Float32.emax; lia)) as (m & e & Hf & He & Hv).
  exists m, e. split; [exact Hf |]. unfold Float32.prec in *. split; [lia |].
  unfold round_shift in Hv.
  destruct (Z.leb_spec (Zdigits2 n - 24) 0); [| lia].
  replace (e + 24 - 1) with (e + 23) in Hv by lia.
  change (24 - 1) with 23 in Hv. exact Hv.
Qed.

Lemma of_long_FFF : Float32.of_long 0xFFF = S754_finite false 16773120 (-12).
Proof. vm_compute. reflexivity. Qed.

(** The smaller of two floats has the smaller magnitude. *)
Lemma magnitude_le (m1 : positive) (e1 : Z) (m2 : positive) (e2 c : Z) :
  0 <= e1 + c -> 0 <= e2 + c ->
  Z.pos m1 * 2 ^ (e1 + c) <= Z.pos m2 * 2 ^ (e2 + c) ->
  Zdigits2 (Z.pos m1) + e1 <= Zdigits2 (Z.pos m2) + e2.
Proof.
  intros H1 H2 Hle.
  pose proof (Zdigits2_bounds (Z.pos m1) ltac:(lia)) as [Hlo _].
  pose proof (Zdigits2_bounds (Z.pos m2) ltac:(lia)) as [_ Hhi].
  pose proof (Zdigits2_nonneg (Z.pos m2)).
  assert (0 < Zdigits2 (Z.pos m1)) by (simpl; lia).
  assert (Hp1 : 0 < 2 ^ (e1 + c)) by (apply pow2_pos; lia).
  assert (Hp2 : 0 < 2 ^ (e2 + c)) by (apply pow2_pos; lia).
  assert (Hlt : 2 ^ ((Zdigits2 (Z.pos m1) - 1) + (e1 + c))
                < 2 ^ (Zdigits2 (Z.pos m2) + (e2 + c))).
  { rewrite (pow2_split (Zdigits2 (Z.pos m1) - 1) (e1 + c)),
            (pow2_split (Zdigits2 (Z.pos m2)) (e2 + c)) by lia.
    apply Z.le_lt_trans with (Z.pos m1 * 2 ^ (e1 + c));
      [apply Z.mul_le_mono_nonneg_r; lia |].
    apply Z.le_lt_trans with (Z.pos m2 * 2 ^ (e2 + c)); [lia |].
    apply Z.mul_lt_mono_pos_r; lia. }
  apply Z.pow_lt_mono_r_iff in Hlt; lia.
Qed.

(** The quotient [num / den] in [float], between the two neighbours of the
    exact quotient on the grid of step [2^-23]. *)
Lemma div_between (num den : Z) :
  0 < num <= den -> den < 2 ^ 24 ->
  (Float32.div (Float32.of_long num) (Float32.of_long den) = S754_zero false /\
   num * 2 ^ 23 / den = 0) \/
  exists mq eq,
    Float32.div (Float32.of_long num) (Float32.of_long den) = S754_finite false mq eq /\
    eq <= -23 /\
    num * 2 ^ 23 / den * 2 ^ (-23 - eq) <= Z.pos mq
    <= (num * 2 ^ 23 / den + 1) * 2 ^ (-23 - eq).
Proof.
  intros Hnum Hden.
  destruct (of_long_exact num ltac:(lia)) as (mn & en & -> & Hen & Hvn).
  destruct (of_long_exact den ltac:(lia)) as (md & ed & -> & Hed & Hvd).
  set (q0 := num * 2 ^ 23 / den).
  pose proof (Z.div_mod (num * 2 ^ 23) den ltac:(lia)) as Hdm.
  pose proof (Z.mod_pos_bound (num * 2 ^ 23) den ltac:(lia)) as Hmb.
  fold q0 in Hdm.
  assert (Hq0 : 0 <= q0 <= 2 ^ 23).
  { unfold q0. split; [apply Z.div_pos; lia |].
    apply Z.div_le_upper_bound; [lia |]. nia. }
  assert (Hp23 : 2 ^ 23 = 8388608) by reflexivity.
  assert (Hp24 : 2 ^ 24 = 16777216) by reflexivity.
  assert (Hdig : Zdigits2 (Z.pos mn) + en - (Zdigits2 (Z.pos md) + ed) - Float32.prec
                 <= -23).
  { pose proof (magnitude_le mn en md ed 23 ltac:(lia) ltac:(lia) ltac:(nia)).
    unfold Float32.prec. lia. }
  assert (Hsplit : forall e, -23 <= e -> 2 ^ (e - -46) = 2 ^ (e + 23) * 2 ^ 23).
  { intros e He. rewrite <- pow2_split by lia. f_equal. lia. }
  assert (Hup : dyadic_le (Z.pos mn) en ((q0 + 1) * Z.pos md) (-23 + ed)).
  { apply (dyadic_le_shift _ _ _ _ (-46)); [lia | lia |].
    replace (-23 + ed - -46) with (ed + 23) by lia.
    rewrite (Hsplit en Hen). nia. }
  unfold Float32.div.
  destruct (SFdiv_upper Float32.prec Float32.emax float32_prec mn en md ed (q0 + 1) (-23))
    as [Hz | (mq & eq & Hf & Heq & Hmq)]; try assumption.
  - unfold Float32.prec. lia.
  - unfold emin, Float32.prec, Float32.emax. lia.
  - unfold Float32.prec, Float32.emax. lia.
  - (* the quotient rounds to zero: it was below the grid *)
    left. split; [exact Hz |].
    destruct (Z.eq_dec q0 0) as [| Hne]; [assumption | exfalso].
    assert (Hlo : dyadic_le (q0 * Z.pos md) (-23 + ed) (Z.pos mn) en).
    { apply (dyadic_le_shift _ _ _ _ (-46)); [lia | lia |].
      replace (-23 + ed - -46) with (ed + 23) by lia.
      rewrite (Hsplit en Hen). nia. }
    destruct (SFdiv_lower Float32.prec Float32.emax float32_prec mn en md ed q0 (-23))
      as [Hnz _]; try assumption.
    + unfold Float32.prec. lia.
    + unfold emin, Float32.prec, Float32.emax. lia.
    + apply Hnz. exact Hz.
  - right. exists mq, eq. split; [exact Hf |]. split; [exact Heq |].
    split; [| exact Hmq].
    destruct (Z.eq_dec q0 0) as [-> | Hne]; [lia |].
    assert (Hlo : dyadic_le (q0 * Z.pos md) (-23 + ed) (Z.pos mn) en).
    { apply (dyadic_le_shift _ _ _ _ (-46)); [lia | lia |].
      replace (-23 + ed - -46) with (ed + 23) by lia.
      rewrite (Hsplit en Hen). nia. }
    destruct (SFdiv_lower Float32.prec Float32.emax float32_prec mn en md ed q0 (-23))
      as [_ Hge]; try assumption.
    + unfold Float32.prec. lia.
    + unfold emin, Float32.prec, Float32.emax. lia.
    + specialize (Hge mq eq Hf).
      apply (dyadic_le_shift _ _ _ _ eq) in Hge; [| lia | lia].
      rewrite Z.sub_diag, Z.pow_0_r, Z.mul_1_r in Hge. exact Hge.
Qed.

(** The product by 4095 in [float], between two neighbours of the exact
    product on the grid of step [2^-11]. *)
Lemma mul_between (mq : positive) (eq q0 : Z) :
  eq <= -23 -> 0 <= q0 <= 2 ^ 23 ->
  q0 * 2 ^ (-23 - eq) <= Z.pos mq <= (q0 + 1) * 2 ^ (-23 - eq) ->
  (Float32.mul (Float32.of_long 0xFFF) (S754_finite false mq eq) = S754_zero false /\
   4095 * q0 / 4096 = 0) \/
  exists mp ep,
    Float32.mul (Float32.of_long 0xFFF) (S754_finite false mq eq)
    = S754_finite false mp ep /\
    ep <= -11 /\
    4095 * q0 / 4096 * 2 ^ (-11 - ep) <= Z.pos mp
    <= (4095 * (q0 + 1) + 4095) / 4096 * 2 ^ (-11 - ep).
Proof.
  intros Heq Hq0 Hmq.
  rewrite of_long_FFF. unfold Float32.mul. cbn [SFmul xorb].
  set (cl := 4095 * q0 / 4096).
  set (ch := (4095 * (q0 + 1) + 4095) / 4096).
  assert (Hp23 : 2 ^ 23 = 8388608) by reflexivity.
  assert (Hp24 : 2 ^ 24 = 16777216) by reflexivity.
  pose proof (Z.div_mod (4095 * q0) 4096 ltac:(lia)) as Hdl.
  pose proof (Z.mod_pos_bound (4095 * q0) 4096 ltac:(lia)) as Hml.
  fold cl in Hdl.
  pose proof (Z.div_mod (4095 * (q0 + 1) + 4095) 4096 ltac:(lia)) as Hdh.
  pose proof (Z.mod_pos_bound (4095 * (q0 + 1) + 4095) 4096 ltac:(lia)) as Hmh.
  fold ch in Hdh.
  assert (Hcl : 0 <= cl) by (unfold cl; apply Z.div_pos; lia).
  assert (Hch : 0 < ch < 2 ^ 24) by lia.
  assert (Hp : 0 < 2 ^ (-23 - eq)) by (apply pow2_pos; lia).
  assert (Hpow : 2 ^ (-11 - (-12 + eq)) = 16777216 * 2 ^ (-23 - eq)).
  { replace (-11 - (-12 + eq)) with (24 + (-23 - eq)) by lia.
    rewrite pow2_split by lia. reflexivity. }
  rewrite Pos2Z.inj_mul.
  change (Z.pos 16773120) with (4095 * 4096).
  assert (Hup : 4095 * 4096 * Z.pos mq <= ch * 2 ^ (-11 - (-12 + eq))).
  { rewrite Hpow. nia. }
  destruct (round_aux_le Float32.prec Float32.emax float32_prec
              (4095 * 4096 * Z.pos mq) (-12 + eq) loc_Exact ch (-11))
    as [Hz | (mp & ep & Hf & Hep & Hmp)].
  - lia.
  - unfold Float32.prec. lia.
  - unfold emin, Float32.prec, Float32.emax. lia.
  - unfold Float32.prec, Float32.emax. lia.
  - lia.
  - destruct (Z.eq_dec (4095 * 4096 * Z.pos mq) (ch * 2 ^ (-11 - (-12 + eq))));
      [right; split; [assumption | reflexivity] | left; lia].
  - left. split; [exact Hz |].
    destruct (Z.eq_dec cl 0) as [| Hne]; [assumption | exfalso].
    destruct (round_aux_ge Float32.prec Float32.emax float32_prec
                (4095 * 4096 * Z.pos mq) (-12 + eq) loc_Exact cl (-11)) as [Hnz _].
    + unfold Float32.prec. lia.
    + unfold emin, Float32.prec, Float32.emax. lia.
    + apply (dyadic_le_shift _ _ _ _ (-12 + eq)); [lia | lia |].
      rewrite Z.sub_diag, Z.pow_0_r, Z.mul_1_r, Hpow. nia.
    + apply Hnz. exact Hz.
  - right. exists mp, ep. split; [exact Hf |]. split; [exact Hep |].
    split; [| exact Hmp].
    destruct (Z.eq_dec cl 0) as [-> | Hne]; [lia |].
    destruct (round_aux_ge Float32.prec Float32.emax float32_prec
                (4095 * 4096 * Z.pos mq) (-12 + eq) loc_Exact cl (-11)) as [_ Hge].
    + unfold Float32.prec. lia.
    + unfold emin, Float32.prec, Float32.emax. lia.
    + apply (dyadic_le_shift _ _ _ _ (-12 + eq)); [lia | lia |].
      rewrite Z.sub_diag, Z.pow_0_r, Z.mul_1_r, Hpow. nia.
    + specialize (Hge mp ep Hf).
      apply (dyadic_le_shift _ _ _ _ ep) in Hge; [| lia | lia].
      rewrite Z.sub_diag, Z.pow_0_r, Z.mul_1_r in Hge. exact Hge.
Qed.

(** The conversion to [uint16_t] cuts the fraction off. *)
Lemma to_uint16_between (mp : positive) (ep cl ch : Z) :
  ep <= -11 -> 0 <= cl -> ch < 65536 * 2048 ->
  cl * 2 ^ (-11 - ep) <= Z.pos mp <= ch * 2 ^ (-11 - ep) ->
  cl / 2048 <= Float32.to_uint16 (S754_finite false mp ep) <= ch / 2048.
Proof.
  intros Hep Hcl Hch Hmp.
  unfold Float32.to_uint16, Float32.trunc. cbn [cond_Zopp].
  destruct (Z.leb_spec 0 ep); [lia |].
  assert (Hp : 0 < 2 ^ (-11 - ep)) by (apply pow2_pos; lia).
  assert (Hpow : 2 ^ (- ep) = 2 ^ (-11 - ep) * 2048).
  { replace (- ep) with ((-11 - ep) + 11) by lia. rewrite pow2_split by lia. reflexivity. }
  rewrite Hpow, <- Z.div_div by lia.
  assert (Hlo : cl <= Z.pos mp / 2 ^ (-11 - ep)) by (apply Z.div_le_lower_bound; lia).
  assert (Hhi : Z.pos mp / 2 ^ (-11 - ep) <= ch) by (apply Z.div_le_upper_bound; lia).
  pose proof (Z.div_le_mono _ _ 2048 ltac:(lia) Hlo).
  pose proof (Z.div_le_mono _ _ 2048 ltac:(lia) Hhi).
  assert (0 <= cl / 2048) by (apply Z.div_pos; lia).
  assert (ch / 2048 < 65536) by (apply Z.div_lt_upper_bound; lia).
  unfold u16. rewrite Z.mod_small by lia. lia.
Qed.

(** The two grids lose less than one unit between them. *)
Lemma grid_bounds (num den : Z) :
  0 < num <= den ->
  (4095 * (num * 2 ^ 23 / den + 1) + 4095) / 4096 / 2048 <= 4095 * num / den + 1 /\
  4095 * num / den - 1 <= 4095 * (num * 2 ^ 23 / den) / 4096 / 2048.
Proof.
  intros Hnum.
  assert (Hp23 : 2 ^ 23 = 8388608) by reflexivity. rewrite Hp23.
  set (q0 := num * 8388608 / den).
  set (T := 4095 * num / den).
  pose proof (Z.div_mod (num * 8388608) den ltac:(lia)) as Hdq.
  pose proof (Z.mod_pos_bound (num * 8388608) den ltac:(lia)) as Hmq.
  fold q0 in Hdq.
  pose proof (Z.div_mod (4095 * num) den ltac:(lia)) as Hdt.
  pose proof (Z.mod_pos_bound (4095 * num) den ltac:(lia)) as Hmt.
  fold T in Hdt.
  assert (HT : 0 <= T) by (unfold T; apply Z.div_pos; lia).
  assert (Hq0 : 0 <= q0) by (unfold q0; apply Z.div_pos; lia).
  rewrite !Z.div_div by lia. change (4096 * 2048) with 8388608.
  split.
  - assert (Hlt : (4095 * (q0 + 1) + 4095) / 8388608 < T + 2); [| lia].
    apply Z.div_lt_upper_bound; [lia |].
    assert (4095 * q0 * den <= 4095 * (num * 8388608)) by nia.
    assert (4095 * num * 8388608 < (T + 1) * den * 8388608) by nia.
    assert ((4095 * (q0 + 1) + 4095) * den < 8388608 * (T + 2) * den) by nia.
    nia.
  - apply Z.div_le_lower_bound; [lia |].
    assert (T * den * 8388608 <= 4095 * num * 8388608) by nia.
    assert (4095 * (num * 8388608) < 4095 * (q0 + 1) * den) by nia.
    assert (8388608 * (T - 1) * den <= 4095 * q0 * den) by nia.
    nia.
Qed.

Lemma fraction_of_FFF_unfold (num den : Z) :
  fraction_of_FFF num den
  = Float32.to_uint16
      (Float32.mul (Float32.of_long 0xFFF)
                   (Float32.div (Float32.of_long num) (Float32.of_long den))).
Proof. reflexivity. Qed.

Lemma mul_FFF_zero :
  Float32.to_uint16 (Float32.mul (Float32.of_long 0xFFF) (S754_zero false)) = 0.
Proof. vm_compute. reflexivity. Qed.

(** [fraction_of_FFF] between the two grids. *)
Lemma fraction_of_FFF_grid (num den : Z) :
  0 < num <= den -> den < 2 ^ 24 ->
  4095 * (num * 2 ^ 23 / den) / 4096 / 2048
  <= fraction_of_FFF num den
  <= (4095 * (num * 2 ^ 23 / den + 1) + 4095) / 4096 / 2048.
Proof.
  intros Hnum Hden.
  assert (Hp24 : 2 ^ 24 = 16777216) by reflexivity.
  assert (Hq : 0 <= num * 2 ^ 23 / den <= 2 ^ 23).
  { split; [apply Z.div_pos; lia |].
    apply Z.div_le_upper_bound; [lia |]. nia. }
  assert (Hcl : 0 <= 4095 * (num * 2 ^ 23 / den) / 4096)
    by (apply Z.div_pos; lia).
  assert (Hch : (4095 * (num * 2 ^ 23 / den + 1) + 4095) / 4096 < 65536 * 2048).
  { apply Z.div_lt_upper_bound; [lia |].
    change (2 ^ 23) with 8388608 in Hq |- *. lia. }
  assert (Hch0 : 0 <= (4095 * (num * 2 ^ 23 / den + 1) + 4095) / 4096 / 2048).
  { apply Z.div_pos; [apply Z.div_pos |]; lia. }
  rewrite fraction_of_FFF_unfold.
  destruct (div_between num den Hnum Hden)
    as [[Hz Hq0] | (mq & eq & Hf & Heq & Hmq)].
  - rewrite Hz, mul_FFF_zero, Hq0. split; [reflexivity | ].
    rewrite Hq0 in Hch0. exact Hch0.
  - rewrite Hf.
    destruct (mul_between mq eq (num * 2 ^ 23 / den) Heq Hq Hmq)
      as [[Hz Hcl0] | (mp & ep & Hf2 & Hep & Hmp)].
    + rewrite Hz. change (Float32.to_uint16 (S754_zero false)) with 0.
      rewrite Hcl0. split; [reflexivity | exact Hch0].
    + rewrite Hf2. apply to_uint16_between; assumption.
Qed.

(** X2.  [fraction_of_FFF] is within one of the exact fraction: for
    [0 <= num <= den] and a denominator of at most 24 bits (so that both
    conversions to [float] are exact), the result differs from
    [4095 * num / den], rounded down, by at most 1, in spite of the two
    roundings of the float division and multiplication. *)
Theorem fraction_of_FFF_accuracy (num den : Z) :
  0 <= num <= den -> 1 <= den < 2 ^ 24 ->
  4095 * num / den - 1 <= fraction_of_FFF num den <= 4095 * num / den + 1.
Proof.
  intros Hnum Hden.
  assert (Hp24 : 2 ^ 24 = 16777216) by reflexivity.
  destruct (Z.eq_dec num 0) as [-> | Hne].
  - rewrite fraction_of_FFF_zero.
    + rewrite Z.mul_0_r, Z.div_0_l by lia. lia.
    + assert (2 ^ 24 <= 2 ^ 127) by (apply Z.pow_le_mono_r; lia). lia.
  - destruct (grid_bounds num den ltac:(lia)) as [Hhi Hlo].
    pose proof (fraction_of_FFF_grid num den ltac:(lia) ltac:(lia)) as Hg.
    lia.
Qed.

Lemma fraction_of_FFF_accuracy_witness :
  4095 * 1 / 3 - 1 <= fraction_of_FFF 1 3 <= 4095 * 1 / 3 + 1.
Proof. apply (fraction_of_FFF_accuracy 1 3); lia. Defined.

(** The bound is reached from above: here the float product rounds up to
    the next integer. *)
Example fraction_of_FFF_rounds_up :
  fraction_of_FFF 376665 1640897 = 940 /\ 4095 * 376665 / 1640897 = 939.
Proof. vm_compute. split; reflexivity. Qed.

(** Two numerators that differ by one are at least two grid steps apart
    when the denominator has at most 22 bits, which keeps their float
    results in order. *)
Lemma fraction_of_FFF_le (a b den : Z) :
  0 <= a <= b -> b <= den -> 1 <= den <= 2 ^ 22 ->
  fraction_of_FFF a den <= fraction_of_FFF b den.
Proof.
  intros Hab Hb Hden.
  assert (Hp22 : 2 ^ 22 = 4194304) by reflexivity.
  assert (Hp24 : 2 ^ 24 = 16777216) by reflexivity.
  assert (Hp127 : 2 ^ 24 <= 2 ^ 127) by (apply Z.pow_le_mono_r; lia).
  destruct (Z.eq_dec a b) as [-> | Hne]; [lia |].
  destruct (Z.eq_dec a 0) as [-> | Ha].
  - rewrite fraction_of_FFF_zero by lia.
    apply (fraction_of_FFF_range b den); lia.
  - pose proof (fraction_of_FFF_grid a den ltac:(lia) ltac:(lia)) as [_ Hua].
    pose proof (fraction_of_FFF_grid b den ltac:(lia) ltac:(lia)) as [Hlb _].
    apply Z.le_trans with (1 := Hua). apply Z.le_trans with (2 := Hlb).
    apply Z.div_le_mono; [lia |]. apply Z.div_le_mono; [lia |].
    change (2 ^ 23) with 8388608.
    assert (Hstep : a * 8388608 / den + 2 <= b * 8388608 / den).
    { replace (a * 8388608 / den + 2) with ((a * 8388608 + 2 * den) / den).
      - apply Z.div_le_mono; lia.
      - rewrite Z.div_add by lia. reflexivity. }
    lia.
Qed.

(** X3.  [fraction_of_FFF] never steps backwards: for a denominator of
    at most [2^22], a larger numerator (up to the denominator) never
    gives a smaller result, and all results lie in 0..0xFFF. *)
Theorem fraction_of_FFF_monotone (a b den : Z) :
  0 <= a <= b -> b <= den -> 1 <= den <= 2 ^ 22 ->
  0 <= fraction_of_FFF a den <= fraction_of_FFF b den /\
  fraction_of_FFF b den <= 0xFFF.
Proof.
  intros Hab Hb Hden.
  assert (Hp22 : 2 ^ 22 = 4194304) by reflexivity.
  assert (Hp127 : 2 ^ 22 <= 2 ^ 127) by (apply Z.pow_le_mono_r; lia).
  pose proof (fraction_of_FFF_range a den ltac:(lia) ltac:(lia)).
  pose proof (fraction_of_FFF_range b den ltac:(lia) ltac:(lia)).
  pose proof (fraction_of_FFF_le a b den Hab Hb Hden).
  lia.
Qed.

Lemma fraction_of_FFF_monotone_witness :
  0 <= fraction_of_FFF 2 5 <= fraction_of_FFF 3 5 /\ fraction_of_FFF 3 5 <= 0xFFF.
Proof. apply (fraction_of_FFF_monotone 2 3 5); lia. Defined.

(** One ramp step of a waveform, as [sample_calc] adds it to a cleared
    [sample_buffer], grows with the numerator. *)
Lemma ramp_le (a b den : Z) :
  0 <= a <= b -> b <= den -> 1 <= den <= 2 ^ 22 ->
  add_sample (Z.shiftr (fraction_of_FFF a den) 2) 0
  <= add_sample (Z.shiftr (fraction_of_FFF b den) 2) 0.
Proof.
  intros Hab Hb Hden.
  assert (Hp22 : 2 ^ 22 = 4194304) by reflexivity.
  assert (Hp127 : 2 ^ 22 <= 2 ^ 127) by (apply Z.pow_le_mono_r; lia).
  pose proof (fraction_of_FFF_range a den ltac:(lia) ltac:(lia)) as Ha.
  pose proof (fraction_of_FFF_range b den ltac:(lia) ltac:(lia)) as Hbr.
  pose proof (fraction_of_FFF_le a b den Hab Hb Hden) as Hle.
  pose proof (shiftr2_range _ Ha). pose proof (shiftr2_range _ Hbr).
  rewrite !add_sample_0 by lia.
  rewrite !Z.shiftr_div_pow2 by lia. apply Z.div_le_mono; lia.
Qed.

(** ** The shape of the triangle *)

(** X4.  The triangle is symmetric: the falling half mirrors the rising
    half, the amplitude at [period - counter] is the amplitude at
    [counter], whatever the period. *)
Theorem triangle_symmetric (en : bool) (counter period : Z) :
  0 <= counter <= period ->
  voice_sample (mk_voice en TRI (period - counter) period)
  = voice_sample (mk_voice en TRI counter period).
Proof.
  intros Hc. unfold voice_sample, wave_square, wave_saw, wave_tri.
  cbn [v_type v_counter v_period wave_type_eqb].
  rewrite (Z.shiftr_div_pow2 period 1) by lia. change (2 ^ 1) with 2.
  pose proof (Z.div_mod period 2 ltac:(lia)) as Hdm.
  pose proof (Z.mod_pos_bound period 2 ltac:(lia)) as Hmb.
  replace (period - (period - counter)) with counter by lia.
  destruct (Z.leb_spec (period - counter) (period / 2));
    destruct (Z.leb_spec counter (period / 2));
    try (destruct (Z.gtb_spec counter (period / 2)); [| lia]);
    try (destruct (Z.gtb_spec (period - counter) (period / 2)); [| lia]);
    try reflexivity; try lia.
  replace (period - counter) with counter by lia. reflexivity.
Qed.

Lemma triangle_symmetric_witness :
  voice_sample (mk_voice true TRI (5 - 2) 5) = voice_sample (mk_voice true TRI 2 5).
Proof. apply (triangle_symmetric true 2 5). lia. Defined.

(** X5.  Where each waveform of [sample_calc] starts and ends, for a
    period that fits a [long]: the saw runs from 0 to full scale 0x3FF;
    the triangle starts and ends at 0 and, for an even period, peaks at
    0x3FF half way; the square starts high at 0x3FF and ends low at 0. *)
Theorem waveform_extremes (en : bool) (period : Z) :
  1 <= period <= LONG_MAX ->
  voice_sample (mk_voice en SAW 0 period) = 0 /\
  voice_sample (mk_voice en SAW period period) = 0x3FF /\
  voice_sample (mk_voice en TRI 0 period) = 0 /\
  voice_sample (mk_voice en TRI period period) = 0 /\
  (Z.even period = true ->
   voice_sample (mk_voice en TRI (period / 2) period) = 0x3FF) /\
  voice_sample (mk_voice en SQUARE 0 period) = 0x3FF /\
  voice_sample (mk_voice en SQUARE period period) = 0.
Proof.
  intros Hp.
  pose proof (fraction_of_FFF_zero period (long_is_wide period Hp)) as H0.
  pose proof (fraction_of_FFF_same period (long_is_wide period Hp)) as H1.
  pose proof (Z.div_mod period 2 ltac:(lia)) as Hdm.
  pose proof (Z.mod_pos_bound period 2 ltac:(lia)) as Hmb.
  unfold voice_sample, wave_square, wave_saw, wave_tri.
  cbn [v_type v_counter v_period wave_type_eqb].
  rewrite (Z.shiftr_div_pow2 period 1) by lia. change (2 ^ 1) with 2.
  rewrite Z.quot_div_nonneg by lia.
  repeat split.
  - rewrite H0. reflexivity.
  - rewrite H1. reflexivity.
  - destruct (Z.leb_spec 0 (period / 2)); [| lia].
    change (Z.shiftl 0 1) with 0. rewrite H0. reflexivity.
  - destruct (Z.leb_spec period (period / 2)); [lia |].
    destruct (Z.gtb_spec period (period / 2)); [| lia].
    rewrite Z.sub_diag. change (Z.shiftl 0 1) with 0. rewrite H0. reflexivity.
  - intros Hev. rewrite Z.leb_refl.
    rewrite Z.shiftl_mul_pow2 by lia. change (2 ^ 1) with 2.
    apply Z.even_spec in Hev. destruct Hev as [h Hh].
    replace (period / 2 * 2) with period.
    + rewrite H1. reflexivity.
    + subst period. rewrite (Z.mul_comm 2 h), Z.div_mul by lia. reflexivity.
  - destruct (Z.leb_spec 0 (period / 2)); [reflexivity | lia].
  - destruct (Z.leb_spec period (period / 2)); [lia | reflexivity].
Qed.

Lemma waveform_extremes_witness :
  voice_sample (mk_voice true SAW 0 4) = 0 /\
  voice_sample (mk_voice true SAW 4 4) = 0x3FF /\
  voice_sample (mk_voice true TRI 0 4) = 0 /\
  voice_sample (mk_voice true TRI 4 4) = 0 /\
  (Z.even 4 = true -> voice_sample (mk_voice true TRI (4 / 2) 4) = 0x3FF) /\
  voice_sample (mk_voice true SQUARE 0 4) = 0x3FF /\
  voice_sample (mk_voice true SQUARE 4 4) = 0.
Proof. apply (waveform_extremes true 4). unfold LONG_MAX. lia. Defined.

(** X6.  The shape of the waveforms of [sample_calc], for a period of
    at most [2^22]: over the counters of one period the saw never falls;
    the triangle never falls up to half the period and never rises after
    it; the square never rises. *)
Theorem waveform_shape (en : bool) (period : Z) :
  1 <= period <= 2 ^ 22 ->
  (forall c1 c2, 0 <= c1 <= c2 -> c2 <= period ->
     voice_sample (mk_voice en SAW c1 period)
     <= voice_sample (mk_voice en SAW c2 period)) /\
  (forall c1 c2, 0 <= c1 <= c2 -> c2 <= Z.shiftr period 1 ->
     voice_sample (mk_voice en TRI c1 period)
     <= voice_sample (mk_voice en TRI c2 period)) /\
  (forall c1 c2, Z.shiftr period 1 < c1 <= c2 -> c2 <= period ->
     voice_sample (mk_voice en TRI c2 period)
     <= voice_sample (mk_voice en TRI c1 period)) /\
  (forall c1 c2, c1 <= c2 ->
     voice_sample (mk_voice en SQUARE c2 period)
     <= voice_sample (mk_voice en SQUARE c1 period)).
Proof.
  intros HP.
  assert (Hhalf : Z.shiftr period 1 = period / 2)
    by (rewrite Z.shiftr_div_pow2 by lia; reflexivity).
  pose proof (Z.div_mod period 2 ltac:(lia)) as Hdm.
  pose proof (Z.mod_pos_bound period 2 ltac:(lia)) as Hmb.
  split; [| split; [| split]]; intros c1 c2 Hc;
    [intros Hc2 | intros Hc2 | intros Hc2 |];
    unfold voice_sample, wave_square, wave_saw, wave_tri;
    cbn [v_type v_counter v_period wave_type_eqb];
    rewrite ?Hhalf in *.
  - apply ramp_le; assumption.
  - destruct (Z.leb_spec c1 (period / 2)); [| lia].
    destruct (Z.leb_spec c2 (period / 2)); [| lia].
    apply ramp_le; rewrite ?Z.shiftl_mul_pow2 by lia; lia.
  - destruct (Z.leb_spec c1 (period / 2)); [lia |].
    destruct (Z.leb_spec c2 (period / 2)); [lia |].
    destruct (Z.gtb_spec c1 (period / 2)); [| lia].
    destruct (Z.gtb_spec c2 (period / 2)); [| lia].
    apply ramp_le; rewrite ?Z.shiftl_mul_pow2 by lia; lia.
  - rewrite Z.quot_div_nonneg by lia.
    destruct (Z.leb_spec c1 (period / 2)); destruct (Z.leb_spec c2 (period / 2));
      rewrite ?add_sample_0 by (change (Z.shiftr 0xFFF 2) with 1023; lia);
      change (Z.shiftr 0xFFF 2) with 1023; lia.
Qed.

Lemma waveform_shape_witness :
  (forall c1 c2, 0 <= c1 <= c2 -> c2 <= 5 ->
     voice_sample (mk_voice true SAW c1 5) <= voice_sample (mk_voice true SAW c2 5)) /\
  (forall c1 c2, 0 <= c1 <= c2 -> c2 <= Z.shiftr 5 1 ->
     voice_sample (mk_voice true TRI c1 5) <= voice_sample (mk_voice true TRI c2 5)) /\
  (forall c1 c2, Z.shiftr 5 1 < c1 <= c2 -> c2 <= 5 ->
     voice_sample (mk_voice true TRI c2 5) <= voice_sample (mk_voice true TRI c1 5)) /\
  (forall c1 c2, c1 <= c2 ->
     voice_sample (mk_voice true SQUARE c2 5) <= voice_sample (mk_voice true SQUARE c1 5)).
Proof. apply (waveform_shape true 5). lia. Defined.

(** ** The DAC frame as a code *)

Lemma sent_bytes_word (input16 : Z) :
  sent_bytes input16
  = [(input16 mod 4096 + 0x3000) / 256; (input16 mod 4096 + 0x3000) mod 256].
Proof.
  pose proof (Z.mod_pos_bound input16 4096 ltac:(lia)) as Hm.
  unfold sent_bytes, sample_to_send_u16. rewrite dac_word_sum.
  set (word := input16 mod 4096 + 0x3000) in *.
  unfold u16. rewrite (Z.mod_small word) by lia.
  rewrite !u16_to_u8_div by lia.
  change (2 ^ (8 * 1)) with 256. change (2 ^ (8 * 0)) with 1.
  rewrite Z.div_1_r. f_equal.
  apply Z.mod_small.
  pose proof (Z.div_pos word 256 ltac:(lia) ltac:(lia)).
  pose proof (Z.div_lt_upper_bound word 256 256 ltac:(lia) ltac:(lia)). lia.
Qed.

(** X7.  The two bytes [write_to_MCP4821] sends decode back to the low
    twelve bits of its argument: high byte times 256 plus low byte, less
    the command bits 0x3000.  Two arguments give the same bytes exactly
    when they agree on their low twelve bits, so on the DAC's range
    0..4095 different levels never share a frame. *)
Theorem sent_bytes_decode (a b : Z) :
  (exists hi lo, sent_bytes a = [hi; lo] /\ hi * 256 + lo - 0x3000 = a mod 4096) /\
  (sent_bytes a = sent_bytes b <-> a mod 4096 = b mod 4096) /\
  (0 <= a < 4096 -> 0 <= b < 4096 -> sent_bytes a = sent_bytes b -> a = b).
Proof.
  assert (Hdec : forall x, exists hi lo,
               sent_bytes x = [hi; lo] /\ hi * 256 + lo - 0x3000 = x mod 4096).
  { intros x. rewrite sent_bytes_word. eexists. eexists. split; [reflexivity |].
    pose proof (Z.div_mod (x mod 4096 + 0x3000) 256 ltac:(lia)). lia. }
  assert (Hiff : sent_bytes a = sent_bytes b <-> a mod 4096 = b mod 4096).
  { split.
    - intros Heq.
      destruct (Hdec a) as (ha & la & Ea & Da). destruct (Hdec b) as (hb & lb & Eb & Db).
      rewrite Ea, Eb in Heq. injection Heq as -> ->. lia.
    - intros Heq. rewrite !sent_bytes_word, Heq. reflexivity. }
  split; [apply Hdec | split; [exact Hiff |]].
  intros Ha Hb Heq. apply Hiff in Heq. rewrite !Z.mod_small in Heq; lia.
Qed.

(** ** The sample pipeline *)

Lemma spi_writes_app (l1 l2 : list spi_op) :
  spi_writes (l1 ++ l2) = spi_writes l1 ++ spi_writes l2.
Proof. unfold spi_writes. apply flat_map_app. Qed.

Lemma sample_calc_spi_tx (s : system) : spi_tx (sample_calc s) = spi_tx s.
Proof. revert s. apply (sample_calc_preserves spi_tx); [reflexivity | body_keeps]. Qed.

Lemma produced_one (t : task) (s : system) :
  produced [t] s =
  match t with
  | SampleCalcTask => if full_queue_flag s then [] else [sample_buffer (sample_calc s)]
  | _ => []
  end.
Proof. cbn [produced]. apply app_nil_r. Qed.

(** A freshly computed sample goes to the queue, or is held back. *)
Lemma vSampleCalcTask_compute (s : system) :
  full_queue_flag s = false ->
  spi_tx (vSampleCalcTask s) = spi_tx s /\
  q_items (sampleQueue (vSampleCalcTask s)) ++ pending_sample (vSampleCalcTask s)
  = q_items (sampleQueue s) ++ [sample_buffer (sample_calc s)].
Proof.
  intros Hf. unfold vSampleCalcTask. rewrite Hf.
  pose proof (sample_calc_sampleQueue s) as Hq.
  pose proof (sample_calc_spi_tx s) as Hs.
  pose proof (sample_calc_full_queue_flag s) as Hg. rewrite Hf in Hg.
  generalize dependent (sample_calc s). intros s' Hq Hs Hg.
  destruct (queue_full (sampleQueue s')) eqn:Hfull.
  - rewrite xQueueSendToBackFromISR_full by assumption.
    unfold pending_sample.
    cbn [set_sampleQueue set_full_queue_flag full_queue_flag sample_buffer
         sampleQueue spi_tx].
    rewrite Hq. split; [assumption | reflexivity].
  - unfold xQueueSendToBackFromISR, xQueueSendToBack. rewrite Hfull.
    unfold pending_sample.
    cbn [set_sampleQueue set_full_queue_flag full_queue_flag sample_buffer
         sampleQueue spi_tx q_items].
    rewrite Hg, Hq, app_nil_r. split; [assumption | reflexivity].
Qed.

(** A retry moves the held sample to the queue, or keeps holding it. *)
Lemma vSampleCalcTask_retry (s : system) :
  full_queue_flag s = true ->
  spi_tx (vSampleCalcTask s) = spi_tx s /\
  q_items (sampleQueue (vSampleCalcTask s)) ++ pending_sample (vSampleCalcTask s)
  = q_items (sampleQueue s) ++ pending_sample s.
Proof.
  intros Hf. destruct (queue_full (sampleQueue s)) eqn:Hfull.
  - rewrite vSampleCalcTask_retry_full by assumption. split; reflexivity.
  - destruct (vSampleCalcTask_retry_room s Hf Hfull) as (Hf' & _ & _ & Hq).
    unfold pending_sample at 1. rewrite Hf', Hq, app_nil_r.
    unfold pending_sample. rewrite Hf. split; [| reflexivity].
    unfold vSampleCalcTask, xQueueSendToBackFromISR, xQueueSendToBack.
    rewrite Hf, Hfull. reflexivity.
Qed.

(** What is sent, queued and held back after one step of one task. *)
Lemma pipeline_step (t : task) (s : system) :
  spi_writes (spi_tx (task_step t s))
  ++ map sent_bytes (q_items (sampleQueue (task_step t s)) ++ pending_sample (task_step t s))
  = spi_writes (spi_tx s)
    ++ map sent_bytes ((q_items (sampleQueue s) ++ pending_sample s) ++ produced [t] s).
Proof.
  rewrite produced_one. destruct t; cbn [task_step].
  - destruct (full_queue_flag s) eqn:Hf.
    + destruct (vSampleCalcTask_retry s Hf) as [Hs Hq].
      rewrite Hs, Hq, app_nil_r. reflexivity.
    + destruct (vSampleCalcTask_compute s Hf) as [Hs Hq].
      rewrite Hs, Hq. unfold pending_sample. rewrite Hf, app_nil_r. reflexivity.
  - rewrite app_nil_r.
    unfold vPeriodicSPITask, xQueueReceive, pending_sample.
    destruct (q_items (sampleQueue s)) as [| x rest] eqn:Hi.
    + rewrite Hi. reflexivity.
    + unfold write_to_MCP4821.
      cbn [set_sampleQueue set_spi_tx full_queue_flag sample_buffer sampleQueue spi_tx
           q_items].
      rewrite spi_writes_app. cbn [spi_writes flat_map app map].
      rewrite <- app_assoc. reflexivity.
  - rewrite app_nil_r.
    unfold vMIDIInterpreter, xQueueReceive, pending_sample.
    destruct (q_items (messageQueue s)); reflexivity.
Qed.

Lemma produced_cons (t : task) (sched : list task) (s : system) :
  produced (t :: sched) s = produced [t] s ++ produced sched (task_step t s).
Proof. cbn [produced]. rewrite app_nil_r. reflexivity. Qed.

(** X8.  The sample pipeline neither loses, repeats nor reorders a
    sample, under every interleaving of the three tasks: what has been
    written to the DAC, then what waits in [sampleQueue], then the sample
    the producer holds back while stalled, is what was there at the start
    followed by the samples [sample_calc] computed since, in order. *)
Theorem pipeline_conserves_samples (sched : list task) (s : system) :
  spi_writes (spi_tx (run sched s))
  ++ map sent_bytes (q_items (sampleQueue (run sched s)) ++ pending_sample (run sched s))
  = spi_writes (spi_tx s)
    ++ map sent_bytes (q_items (sampleQueue s) ++ pending_sample s ++ produced sched s).
Proof.
  revert s. induction sched as [| t sched IH]; intros s.
  - cbn [run fold_left produced]. rewrite app_nil_r. reflexivity.
  - rewrite run_cons, IH, produced_cons.
    rewrite (app_assoc (q_items (sampleQueue (task_step t s)))).
    rewrite map_app, app_assoc, pipeline_step.
    rewrite <- app_assoc, <- map_app, <- !app_assoc. reflexivity.
Qed.

(** ** Leaving a stall *)

(** X9.  One run of the output task ends a stall.  With the producer
    stalled on a queue that holds at least one sample and no more than
    its capacity, a turn of [vPeriodicSPITask] followed by a turn of
    [vSampleCalcTask] sends the oldest sample to the DAC, appends the held
    sample to the queue and clears [full_queue_flag]; no voice moves and
    no new sample is computed in between. *)
Theorem one_output_run_ends_stall (s : system) (oldest : Z) (rest : list Z) :
  full_queue_flag s = true ->
  q_items (sampleQueue s) = oldest :: rest ->
  (length (oldest :: rest) <= uxQueueLength (sampleQueue s))%nat ->
  full_queue_flag (run [PeriodicSPITask; SampleCalcTask] s) = false /\
  q_items (sampleQueue (run [PeriodicSPITask; SampleCalcTask] s))
  = rest ++ [sample_buffer s] /\
  spi_writes (spi_tx (run [PeriodicSPITask; SampleCalcTask] s))
  = spi_writes (spi_tx s) ++ [sent_bytes oldest] /\
  active_voices (run [PeriodicSPITask; SampleCalcTask] s) = active_voices s /\
  sample_buffer (run [PeriodicSPITask; SampleCalcTask] s) = sample_buffer s.
Proof.
  intros Hf Hq Hlen. cbn [run fold_left task_step].
  set (s1 := vPeriodicSPITask s).
  assert (H1 : full_queue_flag s1 = true /\ active_voices s1 = active_voices s /\
               sample_buffer s1 = sample_buffer s /\
               q_items (sampleQueue s1) = rest /\
               uxQueueLength (sampleQueue s1) = uxQueueLength (sampleQueue s) /\
               spi_tx s1 = spi_tx s ++ [spi_select_slave true;
                                        spi_write_buffer_wait (sent_bytes oldest);
                                        spi_select_slave false]).
  { unfold s1, vPeriodicSPITask, xQueueReceive. rewrite Hq. repeat split. assumption. }
  destruct H1 as (Hf1 & Hv1 & Hb1 & Hq1 & Hl1 & Hs1). clearbody s1.
  assert (Hroom : queue_full (sampleQueue s1) = false).
  { unfold queue_full. rewrite Hq1, Hl1. apply Nat.leb_gt. cbn [length] in Hlen. lia. }
  destruct (vSampleCalcTask_retry_room s1 Hf1 Hroom) as (Hf2 & Hv2 & Hb2 & Hq2).
  split; [assumption |]. split; [rewrite Hq2, Hq1, Hb1; reflexivity |].
  split; [| split; congruence].
  unfold vSampleCalcTask, xQueueSendToBackFromISR, xQueueSendToBack.
  rewrite Hf1, Hroom.
  cbn [set_sampleQueue set_full_queue_flag spi_tx].
  rewrite Hs1, spi_writes_app. reflexivity.
Qed.

Lemma one_output_run_ends_stall_witness :
  full_queue_flag (run [PeriodicSPITask; SampleCalcTask]
                       (task_step SampleCalcTask producer_facing_full_queue)) = false /\
  q_items (sampleQueue (run [PeriodicSPITask; SampleCalcTask]
                            (task_step SampleCalcTask producer_facing_full_queue)))
  = [] ++ [sample_buffer (task_step SampleCalcTask producer_facing_full_queue)] /\
  spi_writes (spi_tx (run [PeriodicSPITask; SampleCalcTask]
                          (task_step SampleCalcTask producer_facing_full_queue)))
  = spi_writes (spi_tx (task_step SampleCalcTask producer_facing_full_queue))
    ++ [sent_bytes 7] /\
  active_voices (run [PeriodicSPITask; SampleCalcTask]
                     (task_step SampleCalcTask producer_facing_full_queue))
  = active_voices (task_step SampleCalcTask producer_facing_full_queue) /\
  sample_buffer (run [PeriodicSPITask; SampleCalcTask]
                     (task_step SampleCalcTask producer_facing_full_queue))
  = sample_buffer (task_step SampleCalcTask producer_facing_full_queue).
Proof.
  apply (one_output_run_ends_stall
           (task_step SampleCalcTask producer_facing_full_queue) 7 []).
  - vm_compute. reflexivity.
  - vm_compute. reflexivity.
  - vm_compute. lia.
Defined.

(** ** Samples over time *)

Lemma voice_sample_bounds (en : bool) (w : wave_type) (counter period : Z) :
  1 <= period < 2 ^ 127 -> 0 <= counter <= period ->
  0 <= voice_sample (mk_voice en w counter period) <= 0x3FF.
Proof.
  intros Hp Hc. unfold voice_sample, wave_square, wave_saw, wave_tri.
  cbn [v_type v_counter v_period].
  assert (Hhalf : Z.shiftr period 1 = period / 2)
    by (rewrite Z.shiftr_div_pow2 by lia; reflexivity).
  pose proof (Z.div_mod period 2 ltac:(lia)) as Hdm.
  pose proof (Z.mod_pos_bound period 2 ltac:(lia)) as Hmb.
  destruct w; cbn [wave_type_eqb].
  - destruct (counter <=? Z.quot period 2); [rewrite add_sample_0 |];
      change (Z.shiftr 0xFFF 2) with 1023; lia.
  - apply ramp_range; assumption.
  - rewrite Hhalf. destruct (Z.leb_spec counter (period / 2)).
    + apply ramp_range; [| assumption]. rewrite Z.shiftl_mul_pow2 by lia. lia.
    + destruct (Z.gtb_spec counter (period / 2)); [| lia].
      apply ramp_range; [| assumption]. rewrite Z.shiftl_mul_pow2 by lia. lia.
Qed.

(** A disabled voice stays as it is, tick after tick. *)
Lemma ticks_disabled (n : nat) (s : system) (k : nat) (v : voices) :
  active_voices s !! k = Some v -> v_enable v = false ->
  active_voices (ticks n s) !! k = Some v.
Proof.
  intros Hv He. induction n as [| n IH]; [exact Hv |].
  rewrite ticks_succ, sample_calc_voices, IH.
  destruct (decide (k < 4)%nat); [| reflexivity].
  cbn [fmap option_fmap option_map]. rewrite tick_voice_disabled by assumption.
  reflexivity.
Qed.

(** X10.  Tick after tick, the sample [sample_calc] leaves in
    [sample_buffer] stays within the DAC's ten bits 0..0x3FF, as long as
    the voice in the last slot, if enabled, starts with a period that
    fits a [long] and a counter within it; with that slot disabled the
    sample is 0. *)
Theorem samples_stay_in_range (s : system) (v : voices) (n : nat) :
  active_voices s !! 3%nat = Some v ->
  (v_enable v = true ->
   1 <= v_period v <= LONG_MAX /\ 0 <= v_counter v <= v_period v) ->
  0 <= sample_buffer (ticks (S n) s) <= 0x3FF /\
  (v_enable v = false -> sample_buffer (ticks (S n) s) = 0).
Proof.
  intros Hv Hwf. rewrite ticks_sample_buffer.
  destruct (v_enable v) eqn:He.
  - destruct (Hwf eq_refl) as [HP Hc].
    rewrite (ticks_voice n s 3 v) by (try assumption; lia).
    cbn [slot_sample v_enable]. split; [| discriminate].
    apply voice_sample_bounds.
    + pose proof (long_is_wide _ HP). lia.
    + pose proof (Z.mod_pos_bound (v_counter v + Z.of_nat n) (v_period v + 1) ltac:(lia)).
      lia.
  - rewrite (ticks_disabled n s 3 v) by assumption.
    cbn [slot_sample]. rewrite He. split; [lia | reflexivity].
Qed.

Lemma samples_stay_in_range_witness :
  0 <= sample_buffer (ticks (S 7) triangle_voice_4_last) <= 0x3FF /\
  (true = false -> sample_buffer (ticks (S 7) triangle_voice_4_last) = 0).
Proof.
  apply (samples_stay_in_range triangle_voice_4_last (mk_voice true TRI 0 4) 7).
  - reflexivity.
  - intros _. cbn. unfold LONG_MAX. lia.
Defined.

(** ** Counters that start outside their range *)

Lemma ticks_front (n : nat) (s : system) : ticks (S n) s = ticks n (sample_calc s).
Proof. unfold ticks. apply Nat.iter_succ_r. Qed.

(** X11.  A counter that starts outside [0, period] finds its way back:
    an enabled voice with a period of at least 1 has its counter within
    [0, period] after [max 1 (- counter)] ticks and from then on, keeping
    its period; one that starts above its period is reset by the first
    tick and counts from 0. *)
Theorem counter_recovers (n : nat) (s : system) (k : nat) (v : voices) :
  (k < 4)%nat -> active_voices s !! k = Some v -> v_enable v = true ->
  1 <= v_period v ->
  Z.max 1 (- v_counter v) <= Z.of_nat n ->
  exists v', active_voices (ticks n s) !! k = Some v' /\
             v_enable v' = true /\ v_period v' = v_period v /\
             0 <= v_counter v' <= v_period v /\
             (v_period v < v_counter v ->
              v_counter v' = (Z.of_nat n - 1) mod (v_period v + 1)).
Proof.
  intros Hk. revert s v. induction n as [| n IH]; intros s v Hv He HP Hn; [lia |].
  rewrite ticks_front.
  assert (H1 : active_voices (sample_calc s) !! k = Some (tick_voice v)).
  { rewrite sample_calc_voices, Hv. destruct (decide (k < 4)%nat); [reflexivity | lia]. }
  pose proof (tick_voice_counter v He) as Hc1.
  pose proof (tick_voice_enable v) as He1. rewrite He in He1.
  pose proof (tick_voice_period v) as Hp1.
  destruct (Z_lt_le_dec (v_counter (tick_voice v)) 0) as [Hneg | Hpos].
  - (* still negative: keep climbing *)
    assert (Hlt : v_counter v < v_period v).
    { destruct (Z.ltb_spec (v_counter v) (v_period v)); lia. }
    destruct (Z.ltb_spec (v_counter v) (v_period v)); [| lia].
    destruct (IH (sample_calc s) (tick_voice v) H1 He1 ltac:(lia) ltac:(lia))
      as (v' & Hv' & He' & Hp' & Hc' & _).
    exists v'. repeat split; try assumption; try lia.
  - (* in range after the first tick: it stays there *)
    assert (Hin : 0 <= v_counter (tick_voice v) <= v_period (tick_voice v)).
    { rewrite Hp1. destruct (Z.ltb_spec (v_counter v) (v_period v)); lia. }
    eexists. split.
    + apply (ticks_voice n (sample_calc s) k (tick_voice v)); try assumption. lia.
    + cbn [v_enable v_period v_counter]. rewrite Hp1.
      pose proof (Z.mod_pos_bound (v_counter (tick_voice v) + Z.of_nat n)
                                  (v_period v + 1) ltac:(lia)).
      repeat split; try lia.
      intros Hover. destruct (Z.ltb_spec (v_counter v) (v_period v)); [lia |].
      rewrite Hc1. f_equal. lia.
Qed.

Lemma counter_recovers_witness :
  exists v', active_voices (ticks 3 (system_of [mk_voice true SAW 9 4; silent_voice;
                                                 silent_voice; silent_voice])) !! 0%nat
             = Some v' /\
             v_enable v' = true /\ v_period v' = 4 /\
             0 <= v_counter v' <= 4 /\
             (4 < 9 -> v_counter v' = (Z.of_nat 3 - 1) mod (4 + 1)).
Proof.
  apply (counter_recovers 3 (system_of [mk_voice true SAW 9 4; silent_voice;
                                         silent_voice; silent_voice])
                          0 (mk_voice true SAW 9 4)).
  - lia.
  - reflexivity.
  - reflexivity.
  - cbn. lia.
  - cbn. lia.
Defined.

(** ** The sample stream *)

Lemma ticks_sample_closed (s : system) (v : voices) (n : nat) :
  active_voices s !! 3%nat = Some v -> v_enable v = true ->
  1 <= v_period v -> 0 <= v_counter v <= v_period v ->
  sample_buffer (ticks (S n) s)
  = voice_sample (mk_voice true (v_type v)
                           ((v_counter v + Z.of_nat n) mod (v_period v + 1))
                           (v_period v)).
Proof.
  intros Hv He HP Hc.
  rewrite ticks_sample_buffer, (ticks_voice n s 3 v) by (assumption || lia).
  reflexivity.
Qed.

(** X12.  The sample stream in closed form, and its period.  With an
    enabled voice in the last slot, period at least 1 and counter within
    it, the sample left by call [n + 1] of [sample_calc] is the amplitude
    of that voice at counter [(counter + n) mod (period + 1)]; so the
    stream repeats every [period + 1] samples. *)
Theorem sample_stream_periodic (s : system) (v : voices) (n : nat) :
  active_voices s !! 3%nat = Some v -> v_enable v = true ->
  1 <= v_period v -> 0 <= v_counter v <= v_period v ->
  sample_buffer (ticks (S n) s)
  = voice_sample (mk_voice true (v_type v)
                           ((v_counter v + Z.of_nat n) mod (v_period v + 1))
                           (v_period v)) /\
  sample_buffer (ticks (S (n + Z.to_nat (v_period v + 1))) s)
  = sample_buffer (ticks (S n) s).
Proof.
  intros Hv He HP Hc.
  split; [apply ticks_sample_closed; assumption |].
  rewrite !(ticks_sample_closed s v) by assumption.
  rewrite Nat2Z.inj_add, Z2Nat.id, Z.add_assoc by lia.
  replace (v_counter v + Z.of_nat n + (v_period v + 1))
    with (v_counter v + Z.of_nat n + 1 * (v_period v + 1)) by lia.
  rewrite Z_mod_plus_full. reflexivity.
Qed.

Lemma sample_stream_periodic_witness :
  sample_buffer (ticks (S 2) triangle_voice_4_last)
  = voice_sample (mk_voice true TRI ((0 + Z.of_nat 2) mod (4 + 1)) 4) /\
  sample_buffer (ticks (S (2 + Z.to_nat (4 + 1))) triangle_voice_4_last)
  = sample_buffer (ticks (S 2) triangle_voice_4_last).
Proof.
  apply (sample_stream_periodic triangle_voice_4_last (mk_voice true TRI 0 4) 2).
  - reflexivity.
  - reflexivity.
  - cbn. lia.
  - cbn. lia.
Defined.

(** ** The message queue and the sound *)

Lemma sample_calc_body_set_messageQueue (q : xQueue) (s : system) :
  sample_calc_body (set_messageQueue q s) = set_messageQueue q (sample_calc_body s).
Proof.
  unfold sample_calc_body.
  cbn [active_voices set_sample_buffer set_messageQueue j].
  destruct (active_voices s !! Z.to_nat (j s)) as [v |]; [| reflexivity].
  destruct (v_enable v); reflexivity.
Qed.

Lemma set_j_set_messageQueue (x : Z) (q : xQueue) (s : system) :
  set_j x (set_messageQueue q s) = set_messageQueue q (set_j x s).
Proof. reflexivity. Qed.

Lemma sample_calc_set_messageQueue (q : xQueue) (s : system) :
  sample_calc (set_messageQueue q s) = set_messageQueue q (sample_calc s).
Proof.
  rewrite !sample_calc_unfold.
  repeat (rewrite set_j_set_messageQueue, sample_calc_body_set_messageQueue).
  apply set_j_set_messageQueue.
Qed.

Lemma vSampleCalcTask_set_messageQueue (q : xQueue) (s : system) :
  vSampleCalcTask (set_messageQueue q s) = set_messageQueue q (vSampleCalcTask s).
Proof.
  unfold vSampleCalcTask.
  rewrite sample_calc_set_messageQueue.
  generalize (sample_calc s). intros s1.
  destruct s as [av fq sb jj sq mq us rx tx].
  destruct s1 as [av1 fq1 sb1 jj1 sq1 mq1 us1 rx1 tx1].
  cbn [set_messageQueue full_queue_flag sampleQueue sample_buffer].
  destruct fq.
  - destruct (xQueueSendToBackFromISR sq sb) as [q' []]; reflexivity.
  - destruct (xQueueSendToBackFromISR sq1 sb1) as [q' []]; reflexivity.
Qed.

Lemma vPeriodicSPITask_set_messageQueue (q : xQueue) (s : system) :
  vPeriodicSPITask (set_messageQueue q s) = set_messageQueue q (vPeriodicSPITask s).
Proof.
  unfold vPeriodicSPITask.
  change (sampleQueue (set_messageQueue q s)) with (sampleQueue s).
  destruct (xQueueReceive (sampleQueue s)) as [[x q'] |]; reflexivity.
Qed.

Lemma vMIDIInterpreter_set_messageQueue (q : xQueue) (s : system) :
  vMIDIInterpreter (set_messageQueue q s)
  = set_messageQueue (mk_queue (drop 1 (q_items q)) (uxQueueLength q)) s.
Proof.
  unfold vMIDIInterpreter, xQueueReceive.
  cbn [messageQueue set_messageQueue].
  destruct q as [[| x rest] cap]; reflexivity.
Qed.

Lemma set_messageQueue_same (s : system) : set_messageQueue (messageQueue s) s = s.
Proof. destruct s; reflexivity. Qed.

Lemma run_set_messageQueue (sched : list task) (q : xQueue) (s : system) :
  run sched (set_messageQueue q s)
  = set_messageQueue (mk_queue (drop (midi_turns sched) (q_items q)) (uxQueueLength q))
                     (run sched s).
Proof.
  revert q s. induction sched as [| t sched IH]; intros q s.
  - cbn. destruct q; reflexivity.
  - rewrite !run_cons. destruct t; cbn [task_step].
    + rewrite vSampleCalcTask_set_messageQueue. apply IH.
    + rewrite vPeriodicSPITask_set_messageQueue. apply IH.
    + rewrite vMIDIInterpreter_set_messageQueue, IH.
      cbn [q_items uxQueueLength]. rewrite drop_drop.
      rewrite <- (set_messageQueue_same s) at 2.
      rewrite vMIDIInterpreter_set_messageQueue, IH. reflexivity.
Qed.

(** X13.  No byte in [messageQueue] ever reaches the sound: under every
    interleaving of the three tasks, the voices, the sample buffer, the
    stall flag, the sample queue and everything written to the DAC are
    the same whatever the message queue holds; each turn of
    [vMIDIInterpreter] just drops the oldest byte. *)
Theorem received_bytes_never_reach_the_sound (sched : list task) (q : xQueue) (s : system) :
  active_voices (run sched (set_messageQueue q s)) = active_voices (run sched s) /\
  sample_buffer (run sched (set_messageQueue q s)) = sample_buffer (run sched s) /\
  full_queue_flag (run sched (set_messageQueue q s)) = full_queue_flag (run sched s) /\
  sampleQueue (run sched (set_messageQueue q s)) = sampleQueue (run sched s) /\
  spi_tx (run sched (set_messageQueue q s)) = spi_tx (run sched s) /\
  q_items (messageQueue (run sched (set_messageQueue q s)))
  = drop (midi_turns sched) (q_items q).
Proof.
  rewrite run_set_messageQueue. repeat split.
Qed.

(** ** From the oscillator to the DAC *)

(** What [sample_calc] does to the voices depends on the voices alone. *)
Lemma voices_determine_ticks (s s' : system) (n : nat) :
  active_voices s = active_voices s' ->
  active_voices (ticks n s) = active_voices (ticks n s').
Proof.
  intros Hv. induction n as [| n IH]; [exact Hv |].
  rewrite !ticks_succ. apply list_eq. intros k.
  rewrite !sample_calc_voices, IH. reflexivity.
Qed.

Lemma voices_determine_samples (s s' : system) (n : nat) :
  active_voices s = active_voices s' ->
  sample_buffer (ticks (S n) s) = sample_buffer (ticks (S n) s').
Proof.
  intros Hv. rewrite !ticks_sample_buffer, (voices_determine_ticks s s' n Hv).
  reflexivity.
Qed.

(** One turn of the producer and one of the output task, on an empty queue. *)
Lemma alternate_round (s : system) :
  q_items (sampleQueue s) = [] -> (1 <= uxQueueLength (sampleQueue s))%nat ->
  full_queue_flag s = false ->
  q_items (sampleQueue (vPeriodicSPITask (vSampleCalcTask s))) = [] /\
  uxQueueLength (sampleQueue (vPeriodicSPITask (vSampleCalcTask s)))
  = uxQueueLength (sampleQueue s) /\
  full_queue_flag (vPeriodicSPITask (vSampleCalcTask s)) = false /\
  active_voices (vPeriodicSPITask (vSampleCalcTask s)) = active_voices (sample_calc s) /\
  spi_writes (spi_tx (vPeriodicSPITask (vSampleCalcTask s)))
  = spi_writes (spi_tx s) ++ [sent_bytes (sample_buffer (sample_calc s))].
Proof.
  intros Hq Hcap Hf. unfold vSampleCalcTask. rewrite Hf.
  pose proof (sample_calc_sampleQueue s) as Hsq.
  pose proof (sample_calc_spi_tx s) as Hst.
  pose proof (sample_calc_full_queue_flag s) as Hfl. rewrite Hf in Hfl.
  generalize dependent (sample_calc s). intros s1 Hsq Hst Hfl.
  destruct s1 as [av1 fq1 sb1 jj1 sq1 mq1 us1 rx1 tx1].
  cbn [sampleQueue spi_tx full_queue_flag sample_buffer active_voices] in *.
  subst sq1 tx1 fq1.
  unfold xQueueSendToBackFromISR, xQueueSendToBack, queue_full. rewrite Hq.
  destruct (Nat.leb_spec (uxQueueLength (sampleQueue s)) (length (@nil Z)));
    [cbn [length] in *; lia |].
  cbn [app set_sampleQueue]. unfold vPeriodicSPITask, xQueueReceive.
  cbn [sampleQueue q_items uxQueueLength write_to_MCP4821 set_sampleQueue set_spi_tx
       spi_tx full_queue_flag active_voices].
  rewrite spi_writes_app. repeat split.
Qed.

Lemma alternate_run (n : nat) (s : system) :
  q_items (sampleQueue s) = [] -> (1 <= uxQueueLength (sampleQueue s))%nat ->
  full_queue_flag s = false ->
  spi_writes (spi_tx (run (alternate n) s))
  = spi_writes (spi_tx s)
    ++ map (fun i => sent_bytes (sample_buffer (ticks (S i) s))) (seq 0 n) /\
  q_items (sampleQueue (run (alternate n) s)) = [] /\
  full_queue_flag (run (alternate n) s) = false /\
  active_voices (run (alternate n) s) = active_voices (ticks n s).
Proof.
  revert s. induction n as [| n IH]; intros s Hq Hcap Hf.
  - cbn [alternate run fold_left seq map]. rewrite app_nil_r. repeat split; assumption.
  - cbn [alternate]. rewrite !run_cons. cbn [task_step].
    destruct (alternate_round s Hq Hcap Hf) as (Hq1 & Hc1 & Hf1 & Hv1 & Hw1).
    destruct (IH (vPeriodicSPITask (vSampleCalcTask s)) Hq1 ltac:(lia) Hf1)
      as (Hw & Hq' & Hf' & Hv').
    split; [| split; [assumption | split; [assumption |]]].
    + rewrite Hw, Hw1, <- app_assoc. f_equal.
      cbn [seq map app]. f_equal.
      rewrite <- seq_shift, map_map. apply map_ext. intros i. f_equal.
      rewrite (voices_determine_samples _ (sample_calc s) i Hv1).
      rewrite <- ticks_front. reflexivity.
    + rewrite Hv', (voices_determine_ticks _ (sample_calc s) n Hv1).
      rewrite <- ticks_front. reflexivity.
Qed.

(** X14.  From the oscillator to the DAC.  With the producer and the
    output task taking turns on an empty sample queue of at least one
    place, turn [i] sends to the DAC the frame of the amplitude of the
    last slot's voice at counter [(counter + i) mod (period + 1)]: the
    DAC receives the waveform, sample by sample, and the queue is empty
    again after every round. *)
Theorem alternating_tasks_play_the_voice (n : nat) (s : system) (v : voices) :
  q_items (sampleQueue s) = [] -> (1 <= uxQueueLength (sampleQueue s))%nat ->
  full_queue_flag s = false ->
  active_voices s !! 3%nat = Some v -> v_enable v = true ->
  1 <= v_period v -> 0 <= v_counter v <= v_period v ->
  spi_writes (spi_tx (run (alternate n) s))
  = spi_writes (spi_tx s)
    ++ map (fun i => sent_bytes
                       (voice_sample
                          (mk_voice true (v_type v)
                                    ((v_counter v + Z.of_nat i) mod (v_period v + 1))
                                    (v_period v))))
           (seq 0 n) /\
  q_items (sampleQueue (run (alternate n) s)) = [] /\
  full_queue_flag (run (alternate n) s) = false.
Proof.
  intros Hq Hcap Hf Hv He HP Hc.
  destruct (alternate_run n s Hq Hcap Hf) as (Hw & Hq' & Hf' & _).
  split; [| split; assumption].
  rewrite Hw. f_equal. apply map_ext. intros i.
  rewrite (ticks_sample_closed s v i) by assumption. reflexivity.
Qed.

Lemma alternating_tasks_play_the_voice_witness :
  spi_writes (spi_tx (run (alternate 7) triangle_voice_4_last))
  = spi_writes (spi_tx triangle_voice_4_last)
    ++ map (fun i => sent_bytes
                       (voice_sample
                          (mk_voice true TRI ((0 + Z.of_nat i) mod (4 + 1)) 4)))
           (seq 0 7) /\
  q_items (sampleQueue (run (alternate 7) triangle_voice_4_last)) = [] /\
  full_queue_flag (run (alternate 7) triangle_voice_4_last) = false.
Proof.
  apply (alternating_tasks_play_the_voice 7 triangle_voice_4_last (mk_voice true TRI 0 4)).
  - reflexivity.
  - cbn. lia.
  - reflexivity.
  - reflexivity.
  - reflexivity.
  - cbn. lia.
  - cbn. lia.
Defined.

(** ** The test loop of [main] *)

Lemma u16_idemp (x : Z) : u16 (0 + u16 x) = u16 x.
Proof. unfold u16. rewrite Z.add_0_l. apply Z.mod_mod. lia. Qed.

Lemma active_voices_set_sample_buffer (x : Z) (s : system) :
  active_voices (set_sample_buffer x s) = active_voices s.
Proof. reflexivity. Qed.

Lemma triangle_test_pass_spec (s : system) (v : voices) :
  j s = 0 -> active_voices s !! 0%nat = Some v ->
  exists s', triangle_test_pass s = Some s' /\
             j s' = 0 /\
             active_voices s' !! 0%nat = Some (advance_counter v) /\
             spi_writes (spi_tx s')
             = spi_writes (spi_tx s)
               ++ [sent_bytes (u16 (voice_sample
                                      (mk_voice true TRI (v_counter v) (v_period v)) * 3))].
Proof.
  intros Hj Hv. unfold triangle_test_pass. rewrite Hj.
  change ((0 <=? 0) && (0 <? 4)) with true. change (Z.to_nat 0) with 0%nat. cbv iota. rewrite Hv.
  assert (Hs : voice_sample (mk_voice true TRI (v_counter v) (v_period v))
               = if v_counter v <=? Z.shiftr (v_period v) 1 then
                   u16 (Z.shiftr (fraction_of_FFF (Z.shiftl (v_counter v) 1)
                                                  (v_period v)) 2)
                 else u16 (Z.shiftr (fraction_of_FFF
                                       (Z.shiftl (v_period v - v_counter v) 1)
                                       (v_period v)) 2)).
  { unfold voice_sample, wave_tri, wave_saw, wave_square, add_sample.
    cbn [v_type v_counter v_period wave_type_eqb].
    destruct (Z.leb_spec (v_counter v) (Z.shiftr (v_period v) 1)).
    - apply u16_idemp.
    - destruct (Z.gtb_spec (v_counter v) (Z.shiftr (v_period v) 1)); [| lia].
      apply u16_idemp. }
  rewrite Hs.
  destruct (Z.leb_spec (v_counter v) (Z.shiftr (v_period v) 1)).
  - rewrite active_voices_set_sample_buffer, Hv.
    eexists. split; [reflexivity |].
    generalize (u16 (Z.shiftr (fraction_of_FFF (Z.shiftl (v_counter v) 1)
                                               (v_period v)) 2)).
    intros x. destruct s as [av fq sb jj sq mq us rx tx].
    cbn [write_to_MCP4821 set_active_voices set_sample_buffer set_spi_tx
         active_voices sample_buffer spi_tx j] in *.
    repeat split; try assumption.
    + destruct av; [discriminate | reflexivity].
    + rewrite spi_writes_app. reflexivity.
  - destruct (Z.gtb_spec (v_counter v) (Z.shiftr (v_period v) 1)); [| lia].
    rewrite active_voices_set_sample_buffer, Hv.
    eexists. split; [reflexivity |].
    generalize (u16 (Z.shiftr (fraction_of_FFF
                                 (Z.shiftl (v_period v - v_counter v) 1)
                                 (v_period v)) 2)).
    intros x. destruct s as [av fq sb jj sq mq us rx tx].
    cbn [write_to_MCP4821 set_active_voices set_sample_buffer set_spi_tx
         active_voices sample_buffer spi_tx j] in *.
    repeat split; try assumption.
    + destruct av; [discriminate | reflexivity].
    + rewrite spi_writes_app. reflexivity.
Qed.

Lemma advance_counter_mod (v : voices) :
  1 <= v_period v -> 0 <= v_counter v <= v_period v ->
  advance_counter v
  = mk_voice (v_enable v) (v_type v) ((v_counter v + 1) mod (v_period v + 1)) (v_period v).
Proof.
  intros HP Hc. unfold advance_counter.
  destruct (Z.ltb_spec (v_counter v) (v_period v)).
  - rewrite Z.mod_small by lia. reflexivity.
  - replace (v_counter v) with (v_period v) by lia. rewrite Z.mod_same by lia.
    reflexivity.
Qed.

(** X15.  What [main] sends to the DAC.  From a state with [j = 0] and
    a voice 0 whose period fits a [long] and whose counter lies within it,
    every number of passes of the triangle test loop completes, and pass
    [i] sends the frame of three times the triangle amplitude at counter
    [(counter + i) mod (period + 1)]; three times an amplitude fits the
    DAC's twelve bits, so nothing is cut off.  [main] starts the loop so
    with period 5. *)
Theorem triangle_test_output (n : nat) (s : system) (v : voices) :
  j s = 0 -> active_voices s !! 0%nat = Some v ->
  1 <= v_period v <= LONG_MAX -> 0 <= v_counter v <= v_period v ->
  exists s',
    triangle_test n s = Some s' /\
    spi_writes (spi_tx s')
    = spi_writes (spi_tx s)
      ++ map (fun i => sent_bytes
                         (3 * voice_sample
                                (mk_voice true TRI
                                          ((v_counter v + Z.of_nat i) mod (v_period v + 1))
                                          (v_period v))))
             (seq 0 n) /\
    active_voices s' !! 0%nat
    = Some (mk_voice (v_enable v) (v_type v)
                     ((v_counter v + Z.of_nat n) mod (v_period v + 1)) (v_period v)) /\
    forall c, 0 <= c <= v_period v ->
              0 <= 3 * voice_sample (mk_voice true TRI c (v_period v)) < 4096.
Proof.
  intros Hj Hv HP Hc.
  assert (Hrange : forall c, 0 <= c <= v_period v ->
                             0 <= voice_sample (mk_voice true TRI c (v_period v)) <= 1023).
  { intros c Hcr. apply voice_sample_bounds; [| assumption].
    pose proof (long_is_wide _ HP). lia. }
  revert s v Hj Hv HP Hc Hrange.
  induction n as [| n IH]; intros s v Hj Hv HP Hc Hrange.
  - exists s. cbn [triangle_test seq map]. rewrite app_nil_r.
    split; [reflexivity |]. split; [reflexivity |]. split.
    + rewrite Hv, Z.add_0_r, Z.mod_small by lia. destruct v; reflexivity.
    + intros c Hcr. specialize (Hrange c Hcr). lia.
  - destruct (triangle_test_pass_spec s v Hj Hv) as (s1 & Hs1 & Hj1 & Hv1 & Hw1).
    rewrite advance_counter_mod in Hv1 by lia.
    destruct (IH s1 _ Hj1 Hv1) as (s' & Hrun & Hw & Hv' & Hb).
    + cbn [v_period]. assumption.
    + cbn [v_period v_counter].
      pose proof (Z.mod_pos_bound (v_counter v + 1) (v_period v + 1) ltac:(lia)). lia.
    + cbn [v_period]. assumption.
    + cbn [v_period v_counter v_enable v_type] in *.
      exists s'. cbn [triangle_test]. rewrite Hs1.
      split; [assumption |]. split; [| split; [| assumption]].
      * rewrite Hw, Hw1. cbn [seq map]. rewrite <- app_assoc. cbn [app].
        f_equal. f_equal.
        -- rewrite Z.add_0_r, Z.mod_small by lia.
           specialize (Hrange (v_counter v) Hc).
           unfold u16. rewrite Z.mod_small by lia. f_equal. lia.
        -- rewrite <- seq_shift, map_map. apply map_ext. intros i.
           rewrite Zplus_mod_idemp_l.
           replace (v_counter v + 1 + Z.of_nat i) with (v_counter v + Z.of_nat (S i))
             by lia.
           reflexivity.
      * rewrite Hv', Zplus_mod_idemp_l.
        replace (v_counter v + 1 + Z.of_nat n) with (v_counter v + Z.of_nat (S n))
          by lia.
        reflexivity.
Qed.

Lemma triangle_test_output_witness :
  exists s',
    triangle_test 12 main_init = Some s' /\
    spi_writes (spi_tx s')
    = spi_writes (spi_tx main_init)
      ++ map (fun i => sent_bytes
                         (3 * voice_sample
                                (mk_voice true TRI ((0 + Z.of_nat i) mod (5 + 1)) 5)))
             (seq 0 12) /\
    active_voices s' !! 0%nat
    = Some (mk_voice true TRI ((0 + Z.of_nat 12) mod (5 + 1)) 5) /\
    forall c, 0 <= c <= 5 ->
              0 <= 3 * voice_sample (mk_voice true TRI c 5) < 4096.
Proof.
  apply (triangle_test_output 12 main_init (mk_voice true TRI 0 5)).
  - reflexivity.
  - reflexivity.
  - cbn. unfold LONG_MAX. lia.
  - cbn. lia.
Defined.
